(** * notify: channel-based change notification for Go variables

    A shallow embedding of the packages [notify] (the [Aggregation] type
    with [Aggregate], [Choose], [Len] and [Updated]) and [notifyx] (the
    helpers [WaitForChange] and [DoWhenChanged]).

    Go values are modelled as follows.
    - A channel of type [chan struct{}] on which nobody ever sends is a
      one-shot signal: it is identified by the number the allocator gave it
      and it is either open or closed.  A receive from it is ready exactly
      when it has been closed.
    - A pointer [*Var[T]] is an address in a heap of cells.  Two interface
      values of type [UntypedVar] holding such pointers are equal exactly
      when the addresses are equal.
    - The map [map[UntypedVar]<-chan struct{}] is a [gmap] from addresses to
      channels.
    - The goroutine started by [Updated] is an entry in a pool of blocked
      goroutines which the scheduler may run once one of its select cases
      is ready.
    - A type parameter [T comparable] is a type with decidable equality:
      Go's [!=] is taken to be distinctness, which it is for every
      comparable type except at floating-point NaN.
    [Get], [Set], [Update], [Aggregate], [Choose] and [Len] run under the
    mutex of the object they work on, so they are atomic steps that
    interleave.  [Updated] holds the read lock only while it collects the
    channels of the registry; what it does afterwards is a second step. *)

From stdpp Require Import base option list gmap.

(** Channels and cell addresses. *)
Abbreviation chan := nat.
Abbreviation var := nat.

(** The goroutine spawned by [Updated]: it blocks in [reflect.Select] on
    [cases] (all of them receives; a nil channel is never ready) and then
    closes [ret]. *)
Record Waiter := mkWaiter {
  ret : chan;
  cases : list (option chan)
}.

Section notify.
Context {T E : Type}.

(** The guarded fields of a [Var[T]]: the current value and the channel
    that is closed when this value is replaced. *)
Record Var := mkVar {
  data : T;
  updated : chan
}.

Record World := mkWorld {
  closed : gset chan;        (* channels that have been closed *)
  nchan : chan;              (* next channel [make] hands out *)
  heap : gmap var Var;       (* the allocated cells *)
  nvar : var;                (* next address [VarOf] hands out *)
  ctxs : gset chan;          (* Done/Stopping channels owned by contexts *)
  goroutines : list Waiter   (* goroutines blocked in [Updated] *)
}.

Definition empty_world : World :=
  mkWorld ∅ 0 ∅ 0 ∅ [].

(** [select { case <-ch: ...; default: ... }] takes the first branch iff
    the channel is closed. *)
Definition ready (w : World) (ch : chan) : bool :=
  bool_decide (ch ∈ closed w).

(** Readiness of a select case whose channel may be nil. *)
Definition ready_case (w : World) (c : option chan) : bool :=
  match c with
  | Some ch => ready w ch
  | None => false
  end.

(** [make(chan struct{})] *)
Definition make_chan (w : World) : chan * World :=
  (nchan w,
   mkWorld (closed w) (S (nchan w)) (heap w) (nvar w) (ctxs w) (goroutines w)).

(** [close(ch)] *)
Definition close (ch : chan) (w : World) : World :=
  mkWorld ({[ch]} ∪ closed w) (nchan w) (heap w) (nvar w) (ctxs w)
          (goroutines w).

Definition store (v : var) (c : Var) (w : World) : World :=
  mkWorld (closed w) (nchan w) (<[v := c]> (heap w)) (nvar w) (ctxs w)
          (goroutines w).

(** ** The cell *)

(** Modelled from the spec: the file defining [Var] ([VarOf], [Get], [Set],
    [Update]) is missing.  "Create(initial): builds a cell holding initial,
    signal unfired." *)
Definition VarOf (initial : T) (w : World) : var * World :=
  let '(ch, w1) := make_chan w in
  (nvar w,
   mkWorld (closed w1) (nchan w1) (<[nvar w := mkVar initial ch]> (heap w1))
           (S (nvar w1)) (ctxs w1) (goroutines w1)).

(** Modelled from the spec: the file defining [Var] is missing.
    "Get: returns the current value and a handle to its generation's change
    signal, as one atomic snapshot.  No blocking; no error."  [None] stands
    for the dereference of an address that was never allocated. *)
Definition Var_Get (v : var) (w : World) : option (T * chan) :=
  c ← heap w !! v; Some (data c, updated c).

(** Modelled from the spec: the file defining [Var] is missing.
    "Set(value): unconditionally replaces the current value with value.
    Fires the previous generation's signal and installs a fresh, unfired
    signal." *)
Definition Var_Set (v : var) (next : T) (w : World) : option World :=
  c ← heap w !! v;
  let '(ch, w1) := make_chan (close (updated c) w) in
  Some (store v (mkVar next ch) w1).

(** Modelled from the spec: the file defining [Var] is missing.
    "Update(transform): applies transform to the current value.  If
    transform fails, the cell is left unmodified, no signal fires, and the
    failure is returned alongside the unchanged value as both old and new.
    On success, behaves exactly like Set(transform(old)) but additionally
    returns the prior value."  The result is (new, old, err). *)
Definition Var_Update (v : var) (fn : T → E + T) (w : World)
  : option ((T * T * option E) * World) :=
  c ← heap w !! v;
  match fn (data c) with
  | inl err => Some ((data c, data c, Some err), w)
  | inr next => (w' ← Var_Set v next w; Some ((next, data c, None), w'))
  end.

(** ** The aggregation *)

Record Aggregation := mkAgg {
  mu_m : gmap var chan
}.

Definition NewAggregation : Aggregation := mkAgg ∅.

(** [Aggregate(agg, v)]: [ret, ch := v.Get(); agg.mu.m[v] = ch; return ret] *)
Definition Aggregate (a : Aggregation) (v : var) (w : World)
  : option (T * Aggregation) :=
  '(r, ch) ← Var_Get v w;
  Some (r, mkAgg (<[v := ch]> (mu_m a))).

(** The loop of [Choose].  Go visits the entries of a map in an order the
    runtime picks; [order] is that pick, as the sequence of keys visited
    (a key that is not in the map contributes no iteration). *)
Fixpoint Choose_range (w : World) (m : gmap var chan) (order : list var)
  : option (var * gmap var chan) :=
  match order with
  | [] => None
  | k :: rest =>
      match m !! k with
      | Some v =>
          if ready w v then Some (k, delete k m)
          else Choose_range w m rest
      | None => Choose_range w m rest
      end
  end.

(** [a.Choose()]: returns the handle and [true], or nil and [false]. *)
Definition Choose (order : list var) (a : Aggregation) (w : World)
  : option var * Aggregation :=
  match Choose_range w (mu_m a) order with
  | Some (k, m') => (Some k, mkAgg m')
  | None => (None, a)
  end.

(** [a.Len()] *)
Definition Len (a : Aggregation) : nat := size (mu_m a).

(** [slices.Collect(maps.Values(a.mu.m))].  The order of the collected
    values is unspecified in Go; nothing below depends on it. *)
Definition Values (a : Aggregation) : list chan :=
  (map_to_list (mu_m a)).*2.

(** The loop of [Updated] over [toWatch]: [None] when some channel is
    already closed (the early [close(ret); return ret]), otherwise the
    select cases filled in after [cases[0]]. *)
Fixpoint Updated_scan (w : World) (toWatch : list chan)
  : option (list (option chan)) :=
  match toWatch with
  | [] => Some []
  | ch :: rest =>
      if ready w ch then None
      else (cs ← Updated_scan w rest; Some (Some ch :: cs))
  end.

Definition spawn (g : Waiter) (w : World) : World :=
  mkWorld (closed w) (nchan w) (heap w) (nvar w) (ctxs w)
          (goroutines w ++ [g]).

(** The part of [Updated] that runs after the read lock is released:
    [ret := make(chan struct{})], the loop over [toWatch], and the [go]
    statement.  [done] is [ctx.Done()] (nil for a context that can never be
    cancelled). *)
Definition Updated_from (toWatch : list chan) (done : option chan)
    (w : World) : chan * World :=
  let '(r, w1) := make_chan w in
  match Updated_scan w1 toWatch with
  | None => (r, close r w1)
  | Some cs => (r, spawn (mkWaiter r (done :: cs)) w1)
  end.

(** [a.Updated(ctx)] when nothing else runs between the snapshot of the
    registry and the rest of the call. *)
Definition Updated (a : Aggregation) (done : option chan) (w : World)
  : chan * World :=
  let toWatch := Values a in
  Updated_from toWatch done w.

(** One scheduling of goroutine number [i] of the pool: when one of its
    select cases is ready, [reflect.Select] returns, the deferred
    [close(ret)] runs and the goroutine ends; otherwise it stays blocked. *)
Definition wake (i : nat) (w : World) : World :=
  match goroutines w !! i with
  | Some g =>
      if existsb (ready_case w) (cases g)
      then close (ret g)
             (mkWorld (closed w) (nchan w) (heap w) (nvar w) (ctxs w)
                      (delete i (goroutines w)))
      else w
  | None => w
  end.

(** [context.WithCancel]: a new context with its own Done channel. *)
Definition WithCancel (w : World) : chan * World :=
  let '(ch, w1) := make_chan w in
  (ch, mkWorld (closed w1) (nchan w1) (heap w1) (nvar w1)
               ({[ch]} ∪ ctxs w1) (goroutines w1)).

(** The cancel function of the context whose Done channel is [ch];
    cancelling twice is allowed and does nothing more. *)
Definition cancel (ch : chan) (w : World) : World :=
  if bool_decide (ch ∈ ctxs w) then close ch w else w.

(** ** Interleavings

    The cells, the aggregation under study and the goroutines form one
    system; a run of the program is a sequence of atomic operations on it.
    Operations that only read ([Get], [Len]) leave no trace in a run. *)
Record System := mkSys {
  world : World;
  agg : Aggregation
}.

Definition init : System := mkSys empty_world NewAggregation.

Inductive op :=
  | OpVarOf (initial : T)
  | OpSet (v : var) (next : T)
  | OpUpdate (v : var) (fn : T → E + T)
  | OpAggregate (v : var)
  | OpChoose (order : list var)
  | OpUpdated (done : option chan)
  | OpWithCancel
  | OpCancel (ch : chan)
  | OpWake (i : nat).

(** [None] is a crashed program (nil or dangling pointer). *)
Definition exec (o : op) (s : System) : option System :=
  match o with
  | OpVarOf initial => Some (mkSys (VarOf initial (world s)).2 (agg s))
  | OpSet v next => (w' ← Var_Set v next (world s); Some (mkSys w' (agg s)))
  | OpUpdate v fn =>
      (r ← Var_Update v fn (world s); Some (mkSys (snd r) (agg s)))
  | OpAggregate v =>
      (r ← Aggregate (agg s) v (world s); Some (mkSys (world s) (snd r)))
  | OpChoose order => Some (mkSys (world s) (Choose order (agg s) (world s)).2)
  | OpUpdated done => Some (mkSys (Updated (agg s) done (world s)).2 (agg s))
  | OpWithCancel => Some (mkSys (WithCancel (world s)).2 (agg s))
  | OpCancel ch => Some (mkSys (cancel ch (world s)) (agg s))
  | OpWake i => Some (mkSys (wake i (world s)) (agg s))
  end.

Fixpoint run (tr : list op) (s : System) : option System :=
  match tr with
  | [] => Some s
  | o :: tr' => (s' ← exec o s; run tr' s')
  end.

(** Does operation [o], executed in [s], replace the value of cell [v]? *)
Definition changes (v : var) (o : op) (s : System) : bool :=
  match o with
  | OpSet v' _ => bool_decide (v' = v)
  | OpUpdate v' fn =>
      bool_decide (v' = v) &&
      match heap (world s) !! v' with
      | Some c => match fn (data c) with inr _ => true | inl _ => false end
      | None => false
      end
  | _ => false
  end.

(** Does some operation of the run [tr] from [s] replace the value of [v]? *)
Fixpoint changed_during (v : var) (tr : list op) (s : System) : bool :=
  match tr with
  | [] => false
  | o :: tr' =>
      changes v o s ||
      match exec o s with
      | Some s' => changed_during v tr' s'
      | None => false
      end
  end.

(** Is [o] a registration of cell [v]? *)
Definition registers (v : var) (o : op) : bool :=
  match o with
  | OpAggregate v' => bool_decide (v' = v)
  | _ => false
  end.

(** ** Well-formed worlds

    What allocation guarantees: every channel in use was handed out by
    [make], the channel of a cell's current generation is open and belongs
    to that cell alone, and the channel a blocked goroutine will close is
    open and belongs to that goroutine alone. *)
Record wf (w : World) : Prop := mkWf {
  wf_closed : ∀ ch, ch ∈ closed w → ch < nchan w;
  wf_heap : ∀ v c, heap w !! v = Some c →
    v < nvar w ∧ updated c < nchan w ∧ (updated c ∉ closed w) ∧
    (updated c ∉ ctxs w);
  wf_inj : ∀ v1 v2 c1 c2, heap w !! v1 = Some c1 → heap w !! v2 = Some c2 →
    updated c1 = updated c2 → v1 = v2;
  wf_ctxs : ∀ ch, ch ∈ ctxs w → ch < nchan w;
  wf_go : ∀ g, g ∈ goroutines w →
    ret g < nchan w ∧ (ret g ∉ closed w) ∧ (ret g ∉ ctxs w) ∧
    ∀ v c, heap w !! v = Some c → updated c ≠ ret g;
  wf_rets : NoDup (ret <$> goroutines w)
}.

(** The registry only holds signals of allocated cells: each captured
    channel is the cell's current one or one that has been closed. *)
Definition armed_inv (s : System) : Prop :=
  ∀ v ch, mu_m (agg s) !! v = Some ch →
    ∃ c, heap (world s) !! v = Some c ∧
         (ch ∈ closed (world s) ∨ updated c = ch).

(** The signals a call of [Updated] watches: its context's and those
    captured in the registry at the time of the call. *)
Definition watched_fired (done : option chan) (snapshot : list chan)
    (w : World) : Prop :=
  ready_case w done = true ∨ ∃ ch, ch ∈ snapshot ∧ ready w ch = true.

(** Either the returned channel is closed and a watched signal has fired,
    or it is open and its goroutine is still there. *)
Definition Updated_inv (r : chan) (done : option chan)
    (snapshot : list chan) (w : World) : Prop :=
  (r ∈ closed w ∧ watched_fired done snapshot w) ∨
  ((r ∉ closed w) ∧
   mkWaiter r (done :: (Some <$> snapshot)) ∈ goroutines w).

(** No registration of [a] holds a signal that has fired. *)
Definition none_fired (w : World) (a : Aggregation) : Prop :=
  map_Forall (λ _ ch, ready w ch = false) (mu_m a).

End notify.

Arguments Var : clear implicits.
Arguments World : clear implicits.
Arguments System : clear implicits.
Arguments op : clear implicits.

(** * notifyx: waiting for a change

    The helpers block, so the rest of the program runs while they wait.  A
    schedule lists, for each atomic step the helper takes (a [Get], a
    [select], a call of [IsStopping], the callback), the operations other
    goroutines perform just before it, and the branch the runtime picks
    should both cases of a [select] be ready. *)
Section notifyx.
Context {T E : Type} `{EqDecision T}.

Abbreviation System := (System T).
Abbreviation op := (op T E).

(** What the helpers use of a [*stopper.Context] (package
    vawter.tech/stopper): the channel [Stopping()], closed when the context
    is asked to stop, and [IsStopping()], which polls it. *)
Record Context := mkContext {
  Stopping : chan
}.

Definition IsStopping (ctx : Context) (s : System) : bool :=
  ready (world s) (Stopping ctx).

Definition sched : Type := list (list op * bool).

Inductive outcome (A : Type) : Type :=
  | Returned (a : A) (s : System) (rest : sched)
  | Pending     (* still running or blocked when the schedule or fuel ends *)
  | Panicked.
Arguments Returned {A} a s rest.
Arguments Pending {A}.
Arguments Panicked {A}.

(** Let the other goroutines take their turn before our next step. *)
Definition interleave (sc : sched) (s : System) : outcome bool :=
  match sc with
  | [] => Pending
  | (env, pick) :: rest =>
      match run env s with
      | Some s' => Returned pick s' rest
      | None => Panicked
      end
  end.

(** [select { case <-changed: ...; case <-ctx.Stopping(): ... }]: [true]
    for the first case.  While neither channel is closed the goroutine
    stays blocked and the others keep running. *)
Fixpoint select_changed_or_stopping (changed stopping : chan)
    (sc : sched) (s : System) : outcome bool :=
  match sc with
  | [] => Pending
  | (env, pick) :: rest =>
      match run env s with
      | Some s' =>
          match ready (world s') changed, ready (world s') stopping with
          | true, true => Returned pick s' rest
          | true, false => Returned true s' rest
          | false, true => Returned false s' rest
          | false, false => select_changed_or_stopping changed stopping rest s'
          end
      | None => Panicked
      end
  end.

(** [WaitForChange(ctx, current, source)]; [fuel] bounds the number of
    iterations of its loop. *)
Fixpoint WaitForChange (fuel : nat) (ctx : Context) (current : T)
    (source : var) (sc : sched) (s : System) : outcome (T * chan) :=
  match fuel with
  | 0 => Pending
  | S fuel' =>
      match interleave sc s with
      | Returned _ s1 sc1 =>
          match Var_Get source (world s1) with
          | Some (next, changed) =>
              if decide (current ≠ next) then Returned (next, changed) s1 sc1
              else
                match select_changed_or_stopping changed (Stopping ctx) sc1 s1
                with
                | Returned true s2 sc2 =>
                    WaitForChange fuel' ctx current source sc2 s2
                | Returned false s2 sc2 => Returned (current, changed) s2 sc2
                | Pending => Pending
                | Panicked => Panicked
                end
          | None => Panicked
          end
      | Pending => Pending
      | Panicked => Panicked
      end
  end.

(** The error [fmt.Errorf("changed [%v -> %v]: %w", last, next, err)]. *)
Record ChangedError := mkChangedError {
  err_last : T;
  err_next : T;
  err_cause : E
}.

(** [DoWhenChanged(ctx, start, source, fn)].  The callback may do anything
    to the system (set cells, stop the context).  Next to the outcome the
    model reports the calls of [fn] it made, as pairs (old, new), in
    order; [fuel] bounds the iterations of the outer and inner loops. *)
Fixpoint DoWhenChanged (fuel : nat) (ctx : Context) (start : T)
    (source : var) (fn : T → T → System → option E * System)
    (sc : sched) (s : System)
  : list (T * T) * outcome (T * option ChangedError) :=
  match fuel with
  | 0 => ([], Pending)
  | S fuel' =>
      let last := start in
      match WaitForChange (S fuel') ctx last source sc s with
      | Returned (next, _) s1 sc1 =>
          match interleave sc1 s1 with
          | Returned _ s2 sc2 =>
              if IsStopping ctx s2 then ([], Returned (last, None) s2 sc2)
              else
                match interleave sc2 s2 with
                | Returned _ s3 sc3 =>
                    match fn last next s3 with
                    | (Some err, s4) =>
                        ([(last, next)],
                         Returned
                           (last, Some (mkChangedError last next err)) s4 sc3)
                    | (None, s4) =>
                        let '(calls, r) :=
                          DoWhenChanged fuel' ctx next source fn sc3 s4 in
                        ((last, next) :: calls, r)
                    end
                | Pending => ([], Pending)
                | Panicked => ([], Panicked)
                end
          | Pending => ([], Pending)
          | Panicked => ([], Panicked)
          end
      | Pending => ([], Pending)
      | Panicked => ([], Panicked)
      end
  end.

End notifyx.

Arguments Returned {T E A} a s rest.
Arguments Pending {T E A}.
Arguments Panicked {T E A}.

(** * Callers of the aggregation *)
Section notify_callers.
Context {T : Type}.

(** The registrations of [a] whose captured signal has fired. *)
Definition fired (w : World T) (a : Aggregation) : gmap var chan :=
  filter (λ kv, ready w kv.2 = true) (mu_m a).

(** [order] visits every entry of the registry, as a [range] over the
    whole map does. *)
Definition visits_all (order : list var) (a : Aggregation) : Prop :=
  dom (mu_m a) ⊆ list_to_set order.

(** The loop [for { found, ok := agg.Choose(); if !ok { break }; ... }] of
    TestAggregationImmediate, run while no cell changes.  [orders] gives
    the iteration order of each call of [Choose], and the loop is still
    running when they are used up.  The result lists the handles found. *)
Fixpoint drain (orders : list (list var)) (a : Aggregation) (w : World T)
  : list var * Aggregation :=
  match orders with
  | [] => ([], a)
  | order :: rest =>
      match Choose order a w with
      | (Some k, a') =>
          let '(found, a'') := drain rest a' w in (k :: found, a'')
      | (None, a') => ([], a')
      end
  end.

End notify_callers.

(** * The other helpers of notifyx *)
Section notifyx_more.
Context {T E : Type} `{EqDecision T}.

Abbreviation System := (System T).
Abbreviation op := (op T E).

(** A schedule for helpers whose [select] has more than two cases: next to
    the operations of the other goroutines, a number from which the
    runtime's pick among the ready cases is taken. *)
Definition picks : Type := list (list op * nat).

Inductive result (A : Type) : Type :=
  | Ret (a : A) (s : System) (rest : picks)
  | Wait      (* still running or blocked when the schedule or fuel ends *)
  | Crash.
Arguments Ret {A} a s rest.
Arguments Wait {A}.
Arguments Crash {A}.

(** Let the other goroutines take their turn before our next step. *)
Definition yield (sc : picks) (s : System) : result nat :=
  match sc with
  | [] => Wait
  | (env, pick) :: rest =>
      match run env s with
      | Some s' => Ret pick s' rest
      | None => Crash
      end
  end.

(** The positions, counted from [i], of the channels of [cs] a receive
    from which is ready. *)
Fixpoint ready_from (w : World T) (i : nat) (cs : list chan) : list nat :=
  match cs with
  | [] => []
  | ch :: rest =>
      if ready w ch then i :: ready_from w (S i) rest
      else ready_from w (S i) rest
  end.

(** A [select] whose cases are receives from the channels [cs], in the
    order written: the result is the position of the case taken.  While no
    case is ready the goroutine stays blocked and the others keep
    running. *)
Fixpoint select_recv (cs : list chan) (sc : picks) (s : System)
  : result nat :=
  match sc with
  | [] => Wait
  | (env, pick) :: rest =>
      match run env s with
      | Some s' =>
          let rdy := ready_from (world s') 0 cs in
          match rdy !! (pick mod length rdy) with
          | Some i => Ret i s' rest
          | None => select_recv cs rest s'
          end
      | None => Crash
      end
  end.



(** [time.NewTimer(d)].  The channel [timer.C] is one the runtime fires,
    once, like the channel of a context; the moment at which it does so is
    left to the schedule, where its expiry is the step [OpCancel]. *)
Definition NewTimer (w : World T) : chan * World T := WithCancel w.

(** The loop of [WaitForChangeOrDuration], [timerC] being [timer.C]. *)
Fixpoint WaitForChangeOrDuration_loop (fuel : nat) (ctx : Context)
    (current : T) (source : var) (timerC : chan) (sc : picks) (s : System)
  : result (T * chan) :=
  match fuel with
  | 0 => Wait
  | S fuel' =>
      match yield sc s with
      | Ret _ s1 sc1 =>
          match Var_Get source (world s1) with
          | Some (next, changed) =>
              if decide (current ≠ next) then Ret (next, changed) s1 sc1
              else
                match select_recv [changed; timerC; Stopping ctx] sc1 s1 with
                | Ret 0 s2 sc2 =>
                    WaitForChangeOrDuration_loop fuel' ctx current source
                      timerC sc2 s2
                | Ret _ s2 sc2 => Ret (current, changed) s2 sc2
                | Wait => Wait
                | Crash => Crash
                end
          | None => Crash
          end
      | Wait => Wait
      | Crash => Crash
      end
  end.

(** [WaitForChangeOrDuration(ctx, current, source, d)] *)
Definition WaitForChangeOrDuration (fuel : nat) (ctx : Context)
    (current : T) (source : var) (sc : picks) (s : System)
  : result (T * chan) :=
  let '(timerC, w1) := NewTimer (world s) in
  WaitForChangeOrDuration_loop fuel ctx current source timerC sc
    (mkSys w1 (agg s)).

(** [DoWhenChangedOrInterval(ctx, start, source, period, fn)], reporting
    the calls of [fn] as [DoWhenChanged] does. *)
Fixpoint DoWhenChangedOrInterval (fuel : nat) (ctx : Context) (start : T)
    (source : var) (fn : T → T → System → option E * System)
    (sc : picks) (s : System)
  : list (T * T) * result (T * option (ChangedError (T:=T) (E:=E))) :=
  match fuel with
  | 0 => ([], Wait)
  | S fuel' =>
      let last := start in
      match WaitForChangeOrDuration (S fuel') ctx last source sc s with
      | Ret (next, _) s1 sc1 =>
          match yield sc1 s1 with
          | Ret _ s2 sc2 =>
              if IsStopping ctx s2 then ([], Ret (last, None) s2 sc2)
              else
                match yield sc2 s2 with
                | Ret _ s3 sc3 =>
                    match fn last next s3 with
                    | (Some err, s4) =>
                        ([(last, next)],
                         Ret (last, Some (mkChangedError last next err))
                             s4 sc3)
                    | (None, s4) =>
                        let '(calls, r) :=
                          DoWhenChangedOrInterval fuel' ctx next source fn
                            sc3 s4 in
                        ((last, next) :: calls, r)
                    end
                | Wait => ([], Wait)
                | Crash => ([], Crash)
                end
          | Wait => ([], Wait)
          | Crash => ([], Crash)
          end
      | Wait => ([], Wait)
      | Crash => ([], Crash)
      end
  end.

(** The calls of a callback follow one another: each call's old value is
    the new value of the call before it, the first one's being [start]. *)
Fixpoint chained (start : T) (calls : list (T * T)) : Prop :=
  match calls with
  | [] => True
  | (old, new) :: rest => old = start ∧ chained new rest
  end.

(** The new value of the last of the [calls], [start] when there is none. *)
Definition last_processed (start : T) (calls : list (T * T)) : T :=
  default start (last (calls.*2)).

End notifyx_more.

Arguments Ret {T E A} a s rest.
Arguments Wait {T E A}.
Arguments Crash {T E A}.

(** * Properties of the cell and of the aggregation *)
Section notify_properties.
Context {T E : Type}.
Implicit Types (w : World T) (s : System T) (a : Aggregation).
Implicit Types (o : op T E) (tr : list (op T E)).
Implicit Types (v k : var) (ch : chan).

Lemma ready_true w ch : ready w ch = true ↔ ch ∈ closed w.
Proof. unfold ready. by rewrite bool_decide_eq_true. Qed.

Lemma ready_false w ch : ready w ch = false ↔ ch ∉ closed w.
Proof. unfold ready. by rewrite bool_decide_eq_false. Qed.

Lemma Var_Set_closed v next w w' :
  Var_Set v next w = Some w' →
  ∃ c, heap w !! v = Some c ∧ closed w' = {[updated c]} ∪ closed w.
Proof.
  unfold Var_Set. destruct (heap w !! v) as [c|] eqn:Hc; simpl; [|done].
  intros [= <-]. by exists c.
Qed.

Lemma Updated_closed a done w :
  closed w ⊆ closed (Updated a done w).2.
Proof.
  unfold Updated, Updated_from. simpl.
  destruct (Updated_scan _ _); simpl; set_solver.
Qed.

Lemma wake_closed i w : closed w ⊆ closed (wake i w).
Proof.
  unfold wake. destruct (goroutines w !! i) as [g|]; [|done].
  destruct (existsb _ _); simpl; set_solver.
Qed.

Lemma cancel_closed ch w : closed w ⊆ closed (cancel ch w).
Proof. unfold cancel. case_bool_decide; simpl; set_solver. Qed.

Lemma Var_Update_closed v fn w r w' :
  Var_Update (E:=E) v fn w = Some (r, w') → closed w ⊆ closed w'.
Proof.
  unfold Var_Update. destruct (heap w !! v) as [c|]; simpl; [|done].
  destruct (fn (data c)) as [e|next]; [by intros [= <- <-]|].
  destruct (Var_Set v next w) as [w1|] eqn:Hs; simpl; [|done].
  intros [= <- <-]. apply Var_Set_closed in Hs as (c' & _ & ->). set_solver.
Qed.

(** A closed channel stays closed. *)
Lemma exec_closed_mono o s s' :
  exec o s = Some s' → closed (world s) ⊆ closed (world s').
Proof.
  destruct o as [x|v x|v fn|v|order|done| |ch|i]; simpl.
  - by intros [= <-].
  - destruct (Var_Set v x (world s)) as [w1|] eqn:Hs; simpl; [|done].
    intros [= <-]; simpl.
    apply Var_Set_closed in Hs as (c & _ & ->). set_solver.
  - destruct (Var_Update v fn (world s)) as [[r w1]|] eqn:Hu; simpl; [|done].
    intros [= <-]; simpl. by eapply Var_Update_closed.
  - destruct (Aggregate _ _ _); simpl; [|done]. by intros [= <-].
  - by intros [= <-].
  - intros [= <-]. apply Updated_closed.
  - by intros [= <-].
  - intros [= <-]. apply cancel_closed.
  - intros [= <-]. apply wake_closed.
Qed.

Lemma run_closed_mono tr s s' :
  run tr s = Some s' → closed (world s) ⊆ closed (world s').
Proof.
  revert s. induction tr as [|o tr IH]; simpl; intros s Hr.
  - by simplify_eq.
  - destruct (exec o s) as [s1|] eqn:Hx; simpl in Hr; [|done].
    etrans; [by eapply exec_closed_mono | by apply IH].
Qed.

(** ** Allocation keeps worlds well formed *)

Lemma wf_empty_world : wf (T:=T) empty_world.
Proof.
  split; simpl; try set_solver. constructor.
Qed.

Lemma wf_VarOf x w : wf w → wf (VarOf x w).2.
Proof.
  intros [Hc Hh Hi Hx Hg Hr]. split; simpl.
  - intros ch Hch. apply Hc in Hch. lia.
  - intros v c. rewrite lookup_insert. case_decide as Hv.
    + intros [= <-]; simpl. subst v. repeat split; [lia..| |].
      * intros Hin%Hc. lia.
      * intros Hin%Hx. lia.
    + intros Hl. destruct (Hh _ _ Hl) as (?&?&?&?). repeat split; [lia..|done|done].
  - intros v1 v2 c1 c2. rewrite !lookup_insert.
    repeat case_decide; subst; try done.
    + intros [= <-] Hl; simpl. destruct (Hh _ _ Hl) as (?&?&?&?). lia.
    + intros Hl [= <-]; simpl. destruct (Hh _ _ Hl) as (?&?&?&?). lia.
    + apply Hi.
  - intros ch Hch%Hx. lia.
  - intros g Hin. destruct (Hg _ Hin) as (?&?&?&Hne). repeat split; [lia|done|done|].
    intros v c. rewrite lookup_insert. case_decide.
    + intros [= <-]; simpl. lia.
    + apply Hne.
  - done.
Qed.

Lemma wf_Var_Set v x w w' : wf w → Var_Set v x w = Some w' → wf w'.
Proof.
  intros [Hc Hh Hi Hx Hg Hr]. unfold Var_Set.
  destruct (heap w !! v) as [c0|] eqn:Hv; simpl; [|done].
  intros [= <-]. destruct (Hh _ _ Hv) as (?&?&?&?).
  split; simpl.
  - intros ch [Hsg%elem_of_singleton|Hch%Hc]%elem_of_union; lia.
  - intros v1 c. rewrite lookup_insert. case_decide as Hv1.
    + intros [= <-]; simpl. subst v1. repeat split; [lia..| |].
      * intros [Hsg%elem_of_singleton|Hin%Hc]%elem_of_union; lia.
      * intros Hin%Hx. lia.
    + intros Hl. destruct (Hh _ _ Hl) as (?&?&?&?).
      repeat split; [lia..| |done].
      intros [Heq%elem_of_singleton|?]%elem_of_union; [|done].
      by specialize (Hi _ _ _ _ Hl Hv Heq).
  - intros v1 v2 c1 c2. rewrite !lookup_insert.
    repeat case_decide; subst; try done.
    + intros [= <-] Hl; simpl. destruct (Hh _ _ Hl) as (?&?&?&?). lia.
    + intros Hl [= <-]; simpl. destruct (Hh _ _ Hl) as (?&?&?&?). lia.
    + apply Hi.
  - intros ch Hch%Hx. lia.
  - intros g Hin. destruct (Hg _ Hin) as (?&?&?&Hne).
    repeat split; [lia| |done|].
    + intros [Heq%elem_of_singleton|?]%elem_of_union; [|done].
      by apply (Hne _ _ Hv).
    + intros v1 c. rewrite lookup_insert. case_decide.
      * intros [= <-]; simpl. lia.
      * apply Hne.
  - done.
Qed.

Lemma wf_Var_Update v fn w r w' :
  wf w → Var_Update (E:=E) v fn w = Some (r, w') → wf w'.
Proof.
  intros Hwf. unfold Var_Update.
  destruct (heap w !! v) as [c|]; simpl; [|done].
  destruct (fn (data c)) as [e|next]; [by intros [= <- <-]|].
  destruct (Var_Set v next w) as [w1|] eqn:Hs; simpl; [|done].
  intros [= <- <-]. by eapply wf_Var_Set.
Qed.

Lemma Updated_scan_ready_irrel w1 w2 l :
  closed w1 = closed w2 → Updated_scan w1 l = Updated_scan w2 l.
Proof.
  intros Heq. induction l as [|ch l IH]; simpl; [done|].
  unfold ready. rewrite Heq, IH. done.
Qed.

Lemma wf_Updated_from l done w : wf w → wf (Updated_from l done w).2.
Proof.
  intros [Hc Hh Hi Hx Hg Hr]. unfold Updated_from; simpl.
  destruct (Updated_scan _ _) as [cs|]; simpl; split; simpl.
  - intros ch Hch%Hc. lia.
  - intros v c Hl. destruct (Hh _ _ Hl) as (?&?&?&?). repeat split; [lia..|done|done].
  - done.
  - intros ch Hch%Hx. lia.
  - intros g [Hin| ->%list_elem_of_singleton]%elem_of_app; simpl.
    + destruct (Hg _ Hin) as (?&?&?&?). repeat split; [lia|done..].
    + repeat split; [lia| | |].
      * intros Hin%Hc. lia.
      * intros Hin%Hx. lia.
      * intros v c Hl. destruct (Hh _ _ Hl) as (?&?&?&?). lia.
  - rewrite fmap_app. apply NoDup_app. split; [done|]. split.
    + intros r Hr1 ->%list_elem_of_singleton.
      apply list_elem_of_fmap in Hr1 as (g & Heq & Hin). simpl in Heq.
      destruct (Hg _ Hin) as (?&?&?&?). lia.
    + apply NoDup_singleton.
  - intros ch [Hsg%elem_of_singleton|Hch%Hc]%elem_of_union; lia.
  - intros v c Hl. destruct (Hh _ _ Hl) as (?&?&?&?).
    repeat split; [lia..| |done].
    intros [Hsg%elem_of_singleton|?]%elem_of_union; [lia|done].
  - done.
  - intros ch Hch%Hx. lia.
  - intros g Hin. destruct (Hg _ Hin) as (?&?&?&?).
    repeat split; [lia| |done..].
    intros [Heq%elem_of_singleton|?]%elem_of_union; [lia|done].
  - done.
Qed.

Lemma NoDup_fmap_delete_ne {A B} (f : A → B) (l : list A) i x y :
  NoDup (f <$> l) → l !! i = Some x → y ∈ delete i l → f y ≠ f x.
Proof.
  intros Hnd Hi Hy.
  rewrite <-(take_drop_middle l i x Hi) in Hnd.
  rewrite fmap_app, fmap_cons in Hnd.
  apply NoDup_app in Hnd as (_ & Hl & Hr).
  apply NoDup_cons in Hr as [Hr _].
  rewrite delete_take_drop in Hy. apply elem_of_app in Hy as [Hy|Hy].
  - intros Heq. apply (Hl (f x)).
    + rewrite <-Heq. by apply list_elem_of_fmap_2.
    + left.
  - intros Heq. apply Hr. rewrite <-Heq. by apply list_elem_of_fmap_2.
Qed.

Lemma wf_wake i w : wf w → wf (wake i w).
Proof.
  intros Hwf. unfold wake.
  destruct (goroutines w !! i) as [g|] eqn:Hi0; [|done].
  destruct (existsb _ _); [|done].
  destruct Hwf as [Hc Hh Hi Hx Hg Hr].
  assert (g ∈ goroutines w) as Hgin by (by eapply list_elem_of_lookup_2).
  destruct (Hg _ Hgin) as (?&?&?&Hgne).
  split; simpl.
  - intros ch [Hsg%elem_of_singleton|Hch%Hc]%elem_of_union; lia.
  - intros v c Hl. destruct (Hh _ _ Hl) as (?&?&?&?).
    repeat split; [lia..| |done].
    intros [Heq%elem_of_singleton|?]%elem_of_union; [|done].
    by apply (Hgne _ _ Hl).
  - done.
  - done.
  - intros g' Hin.
    assert (g' ∈ goroutines w) as Hin'
      by (eapply elem_of_sublist; [exact Hin|apply sublist_delete]).
    destruct (Hg _ Hin') as (?&?&?&?). repeat split; [lia| |done..].
    intros [Heq%elem_of_singleton|?]%elem_of_union; [|done].
    by eapply (NoDup_fmap_delete_ne ret).
  - rewrite list_fmap_delete. eapply sublist_NoDup; [|apply sublist_delete]. done.
Qed.

Lemma wf_WithCancel w : wf w → wf (WithCancel w).2.
Proof.
  intros [Hc Hh Hi Hx Hg Hr]. split; simpl.
  - intros ch Hch%Hc. lia.
  - intros v c Hl. destruct (Hh _ _ Hl) as (?&?&?&?).
    repeat split; [lia..|done|].
    intros [Hsg%elem_of_singleton|?]%elem_of_union; [lia|done].
  - done.
  - intros ch [Hsg%elem_of_singleton|Hch%Hx]%elem_of_union; lia.
  - intros g Hin. destruct (Hg _ Hin) as (?&?&?&?).
    repeat split; [lia|done| |done].
    intros [Hsg%elem_of_singleton|?]%elem_of_union; [lia|done].
  - done.
Qed.

Lemma wf_cancel ch w : wf w → wf (cancel ch w).
Proof.
  intros Hwf. unfold cancel. case_bool_decide as Hin; [|done].
  destruct Hwf as [Hc Hh Hi Hx Hg Hr]. split; simpl.
  - intros ch' [Hsg%elem_of_singleton|Hch%Hc]%elem_of_union; [subst; by apply Hx|done].
  - intros v c Hl. destruct (Hh _ _ Hl) as (?&?&?&?).
    repeat split; [lia..| |done].
    intros [Heq%elem_of_singleton|?]%elem_of_union; [|done]. congruence.
  - done.
  - done.
  - intros g Hgin. destruct (Hg _ Hgin) as (?&?&?&?).
    repeat split; [lia| |done..].
    intros [Heq%elem_of_singleton|?]%elem_of_union; [|done]. congruence.
  - done.
Qed.

Lemma wf_exec o s s' : wf (world s) → exec o s = Some s' → wf (world s').
Proof.
  intros Hwf. destruct o as [x|v x|v fn|v|order|done| |ch|i]; simpl.
  - intros [= <-]. by apply wf_VarOf.
  - destruct (Var_Set v x (world s)) as [w1|] eqn:Hs; simpl; [|done].
    intros [= <-]; simpl. by eapply wf_Var_Set.
  - destruct (Var_Update v fn (world s)) as [[r w1]|] eqn:Hu; simpl; [|done].
    intros [= <-]; simpl. by eapply wf_Var_Update.
  - destruct (Aggregate _ _ _); simpl; [|done]. by intros [= <-].
  - by intros [= <-].
  - intros [= <-]. by apply wf_Updated_from.
  - intros [= <-]. by apply wf_WithCancel.
  - intros [= <-]. by apply wf_cancel.
  - intros [= <-]. by apply wf_wake.
Qed.

Lemma wf_run tr s s' : wf (world s) → run tr s = Some s' → wf (world s').
Proof.
  revert s. induction tr as [|o tr IH]; simpl; intros s Hwf Hr.
  - by simplify_eq.
  - destruct (exec o s) as [s1|] eqn:Hx; simpl in Hr; [|done].
    eapply IH; [|done]. by eapply wf_exec.
Qed.

Lemma wf_reachable tr s : run tr init = Some s → wf (world s).
Proof. apply wf_run. apply wf_empty_world. Qed.

(** ** The loop of [Choose] *)

Lemma Choose_range_Some w m order k m' :
  Choose_range w m order = Some (k, m') →
  ∃ ch, m !! k = Some ch ∧ ready w ch = true ∧ m' = delete k m ∧ k ∈ order.
Proof.
  induction order as [|k0 rest IH]; simpl; [done|].
  destruct (m !! k0) as [ch|] eqn:Hk.
  - destruct (ready w ch) eqn:Hrd.
    + intros [= <- <-]. exists ch. repeat split; try done. left.
    + intros (ch' & ? & ? & ? & ?)%IH. exists ch'. repeat split; try done.
      by right.
  - intros (ch' & ? & ? & ? & ?)%IH. exists ch'. repeat split; try done.
    by right.
Qed.

Lemma Choose_range_None w m order :
  Choose_range w m order = None ↔
  ∀ k ch, k ∈ order → m !! k = Some ch → ready w ch = false.
Proof.
  induction order as [|k0 rest IH]; simpl.
  - split; [|done]. intros _ k ch Hin. by apply elem_of_nil in Hin.
  - destruct (m !! k0) as [ch0|] eqn:Hk.
    + destruct (ready w ch0) eqn:Hrd.
      * split; [done|]. intros Hall.
        specialize (Hall k0 ch0 (list_elem_of_here _ _) Hk). congruence.
      * rewrite IH. split.
        -- intros Hall k ch [->|Hin]%elem_of_cons Hl; [congruence|eauto].
        -- intros Hall k ch Hin. apply Hall. by right.
    + rewrite IH. split.
      * intros Hall k ch [->|Hin]%elem_of_cons Hl; [congruence|eauto].
      * intros Hall k ch Hin. apply Hall. by right.
Qed.

Lemma Choose_Some order a w k a' :
  Choose order a w = (Some k, a') →
  ∃ ch, mu_m a !! k = Some ch ∧ ready w ch = true ∧
        a' = mkAgg (delete k (mu_m a)) ∧ k ∈ order.
Proof.
  unfold Choose. destruct (Choose_range _ _ _) as [[k' m']|] eqn:Hc; [|done].
  intros [= -> <-]. apply Choose_range_Some in Hc as (ch & ? & ? & -> & ?).
  by exists ch.
Qed.

Lemma Choose_registered order a w k :
  (Choose order a w).1 = Some k → k ∈ dom (mu_m a).
Proof.
  destruct (Choose order a w) as [r a'] eqn:Hc; simpl. intros ->.
  apply Choose_Some in Hc as (ch & Hl & _). apply elem_of_dom. eauto.
Qed.

Lemma size_delete_Some (m : gmap var chan) k ch :
  m !! k = Some ch → size m = S (size (delete k m)).
Proof.
  intros Hl. rewrite <-(insert_delete_id m k ch Hl) at 1.
  apply map_size_insert_None, lookup_delete_eq.
Qed.

(** Only a registration brings a cell into the registry. *)
Lemma exec_unregistered k o s s' :
  registers k o = false → exec o s = Some s' →
  k ∉ dom (mu_m (agg s)) → k ∉ dom (mu_m (agg s')).
Proof.
  intros Hreg Hx Hk.
  destruct o as [x|v x|v fn|v|order|done| |ch|i]; simpl in *.
  - by simplify_eq.
  - destruct (Var_Set v x (world s)); simpl in Hx; by simplify_eq.
  - destruct (Var_Update v fn (world s)); simpl in Hx; by simplify_eq.
  - unfold Aggregate in Hx.
    destruct (Var_Get v (world s)) as [[r ch]|]; simpl in Hx; [|done].
    injection Hx as <-; simpl. apply bool_decide_eq_false in Hreg.
    rewrite dom_insert_L. set_solver.
  - injection Hx as <-; simpl. unfold Choose.
    destruct (Choose_range _ _ _) as [[k' m']|] eqn:Hc; simpl; [|done].
    apply Choose_range_Some in Hc as (ch & _ & _ & -> & _).
    rewrite dom_delete_L. set_solver.
  - by simplify_eq.
  - by simplify_eq.
  - by simplify_eq.
  - by simplify_eq.
Qed.

Lemma run_unregistered k tr s s' :
  Forall (λ o, registers k o = false) tr → run tr s = Some s' →
  k ∉ dom (mu_m (agg s)) → k ∉ dom (mu_m (agg s')).
Proof.
  intros Hall. revert s. induction Hall as [|o tr Ho _ IH]; simpl; intros s Hr Hk.
  - by simplify_eq.
  - destruct (exec o s) as [s1|] eqn:Hx; simpl in Hr; [|done].
    eapply IH; [done|]. by eapply exec_unregistered.
Qed.

(** C3: when [Choose] returns the handle of a cell, it deletes that cell's
    registration from the registry, [Len] goes down by exactly one, and in
    every later state reached without an [Aggregate] of that cell the cell
    is not registered and no [Choose], whatever the iteration order,
    returns it. *)
Theorem Choose_consumes_once order a w k a' :
  Choose order a w = (Some k, a') →
  mu_m a' = delete k (mu_m a) ∧
  k ∈ dom (mu_m a) ∧ (k ∉ dom (mu_m a')) ∧
  Len a = S (Len a') ∧
  ∀ tr s', Forall (λ o, registers k o = false) tr →
           run tr (mkSys w a') = Some s' →
           (k ∉ dom (mu_m (agg s'))) ∧
           ∀ order', (Choose order' (agg s') (world s')).1 ≠ Some k.
Proof.
  intros (ch & Hl & Hrd & -> & Hin)%Choose_Some; simpl.
  assert (k ∉ dom (delete k (mu_m a))) as Hgone
    by (rewrite dom_delete_L; set_solver).
  repeat split; try done.
  - by eapply elem_of_dom_2.
  - unfold Len; simpl. by eapply size_delete_Some.
  - by eapply run_unregistered.
  - intros order' Hc%Choose_registered. revert Hc.
    by eapply run_unregistered.
Qed.

(** C6: a [Choose] on an aggregation none of whose registrations holds a
    fired signal, the empty aggregation included, returns nil and false and
    leaves the registry as it was; and a registration that [Choose] removes
    is one whose captured signal has fired, all others being kept. *)
Theorem Choose_only_fired order a w :
  (none_fired w a → Choose order a w = (None, a)) ∧
  Choose order NewAggregation w = (None, NewAggregation) ∧
  (∀ k a', Choose order a w = (Some k, a') →
     ∃ ch, mu_m a !! k = Some ch ∧ ready w ch = true ∧
           mu_m a' = delete k (mu_m a)).
Proof.
  split; [|split].
  - intros Hnone. unfold Choose.
    destruct (Choose_range _ _ _) as [[k m']|] eqn:Hc; [|done].
    apply Choose_range_Some in Hc as (ch & Hl & Hrd & _).
    apply (map_Forall_lookup_1 _ _ _ _ Hnone) in Hl. congruence.
  - unfold Choose.
    destruct (Choose_range _ _ _) as [[k m']|] eqn:Hc; [|done].
    apply Choose_range_Some in Hc as (ch & Hl & _). simpl in Hl.
    by rewrite lookup_empty in Hl.
  - intros k a' (ch & Hl & Hrd & -> & _)%Choose_Some. by exists ch.
Qed.

(** ** What the registry holds *)

Lemma armed_inv_world w w' a :
  closed w ⊆ closed w' → heap w' = heap w →
  armed_inv (mkSys w a) → armed_inv (mkSys w' a).
Proof.
  intros Hcl Hhp Hinv v ch Hl. simpl in *.
  destruct (Hinv v ch Hl) as (c & Hc & Hch); simpl in *.
  exists c. rewrite Hhp. split; [done|].
  destruct Hch; [left; by apply Hcl|by right].
Qed.

Lemma armed_inv_Var_Set v x w w' a :
  Var_Set v x w = Some w' → armed_inv (mkSys w a) → armed_inv (mkSys w' a).
Proof.
  unfold Var_Set. destruct (heap w !! v) as [c0|] eqn:Hv; simpl; [|done].
  intros [= <-] Hinv v1 ch Hl; simpl in *.
  destruct (Hinv v1 ch Hl) as (c & Hc & Hch); simpl in *.
  destruct (decide (v1 = v)) as [->|Hne].
  - rewrite lookup_insert_eq. eexists. split; [done|]. left.
    simplify_eq. set_solver.
  - exists c. rewrite lookup_insert_ne by done. split; [done|].
    destruct Hch; [left; set_solver|by right].
Qed.

Lemma armed_inv_exec o s s' :
  wf (world s) → armed_inv s → exec o s = Some s' → armed_inv s'.
Proof.
  intros Hwf Hinv. destruct s as [w a].
  destruct o as [x|v x|v fn|v|order|done| |ch|i]; simpl.
  - intros [= <-]. intros v ch Hl; simpl in *.
    destruct (Hinv v ch Hl) as (c & Hc & Hch); simpl in *.
    exists c. split; [|done].
    rewrite lookup_insert_ne; [done|].
    destruct (wf_heap _ Hwf _ _ Hc) as (? & _). lia.
  - destruct (Var_Set v x w) as [w1|] eqn:Hs; simpl; [|done].
    intros [= <-]. by eapply armed_inv_Var_Set.
  - unfold Var_Update. destruct (heap w !! v) as [c|]; simpl; [|done].
    destruct (fn (data c)) as [e|next]; simpl; [by intros [= <-]|].
    destruct (Var_Set v next w) as [w1|] eqn:Hs; simpl; [|done].
    intros [= <-]. by eapply armed_inv_Var_Set.
  - unfold Aggregate, Var_Get.
    destruct (heap w !! v) as [c|] eqn:Hv; simpl; [|done].
    intros [= <-]. intros v1 ch; simpl. rewrite lookup_insert.
    case_decide as Hv1.
    + intros [= <-]. subst v1. exists c. split; [done|by right].
    + apply Hinv.
  - intros [= <-]. intros v ch; simpl. unfold Choose.
    destruct (Choose_range _ _ _) as [[k' m']|] eqn:Hc; simpl; [|apply Hinv].
    apply Choose_range_Some in Hc as (ch' & _ & _ & -> & _).
    intros Hl. apply lookup_delete_Some in Hl as [_ Hl]. by apply Hinv.
  - intros [= <-]. eapply armed_inv_world; [apply Updated_closed| |done].
    unfold Updated, Updated_from; simpl. by destruct (Updated_scan _ _).
  - intros [= <-]. by eapply armed_inv_world.
  - intros [= <-]. eapply armed_inv_world; [apply cancel_closed| |done].
    unfold cancel. by case_bool_decide.
  - intros [= <-]. eapply armed_inv_world; [apply wake_closed| |done].
    unfold wake. destruct (goroutines w !! i); [|done].
    by destruct (existsb _ _).
Qed.

Lemma armed_inv_reachable tr s : run tr init = Some s → armed_inv s.
Proof.
  assert (∀ s0, wf (world s0) → armed_inv s0 → run tr s0 = Some s →
                armed_inv s) as Hgen.
  { induction tr as [|o tr IH]; simpl; intros s0 Hwf Hinv Hr.
    - by simplify_eq.
    - destruct (exec o s0) as [s1|] eqn:Hx; simpl in Hr; [|done].
      eapply IH; [| |done]; [by eapply wf_exec|by eapply armed_inv_exec]. }
  apply Hgen; [apply wf_empty_world|].
  intros v ch; simpl. by rewrite lookup_empty.
Qed.

(** C1, as the code has it: [Aggregate] on a cell that is already in the
    registry returns the cell's live value and leaves [Len] as it is, and
    it stores the cell's current, still open, channel under the cell.  When
    the captured signal has not fired this is the channel already stored
    and the aggregation is left exactly as it was; when it has fired, the
    registration is armed anew against the current generation. *)
Theorem Aggregate_again tr0 s v ch :
  run tr0 init = Some s → mu_m (agg s) !! v = Some ch →
  ∃ x cur a',
    Var_Get v (world s) = Some (x, cur) ∧
    Aggregate (agg s) v (world s) = Some (x, a') ∧
    Len a' = Len (agg s) ∧
    mu_m a' = <[v := cur]> (mu_m (agg s)) ∧
    ready (world s) cur = false ∧
    (ready (world s) ch = false → a' = agg s).
Proof.
  intros Hr Hl.
  pose proof (wf_reachable _ _ Hr) as Hwf.
  destruct (armed_inv_reachable _ _ Hr v ch Hl) as (c & Hc & Hch).
  exists (data c), (updated c), (mkAgg (<[v := updated c]> (mu_m (agg s)))).
  unfold Aggregate, Var_Get. rewrite Hc; simpl.
  destruct (wf_heap _ Hwf _ _ Hc) as (_ & _ & Hopen & _).
  repeat split.
  - unfold Len; simpl. apply map_size_insert_Some. eauto.
  - by apply ready_false.
  - intros Hnf%ready_false. destruct Hch as [Hcl| ->]; [done|].
    destruct (agg s) as [m]; simpl in *. f_equal.
    by apply insert_id.
Qed.

(** ** [Updated] *)

Lemma elem_of_Values a ch :
  ch ∈ Values a ↔ ∃ k, mu_m a !! k = Some ch.
Proof.
  unfold Values. rewrite list_elem_of_fmap. split.
  - intros ([k ch'] & -> & Hin%elem_of_map_to_list). by exists k.
  - intros [k Hk]. exists (k, ch). split; [done|].
    by apply elem_of_map_to_list.
Qed.

Lemma Updated_scan_None w l :
  Updated_scan w l = None ↔ ∃ ch, ch ∈ l ∧ ready w ch = true.
Proof.
  induction l as [|ch l IH]; simpl.
  - split; [done|]. intros (ch & Hin & _). by apply elem_of_nil in Hin.
  - destruct (ready w ch) eqn:Hrd.
    + split; [|done]. intros _. exists ch. split; [left|done].
    + destruct (Updated_scan w l) as [cs|]; simpl.
      * split; [done|]. intros (ch' & [->|Hin]%elem_of_cons & Hrd');
          [congruence|].
        assert (Some cs = None) by (apply IH; eauto). done.
      * split; [|done]. intros _.
        destruct (proj1 IH eq_refl) as (ch' & Hin & Hrd').
        exists ch'. split; [by right|done].
Qed.

Lemma Updated_scan_Some w l cs :
  Updated_scan w l = Some cs →
  cs = Some <$> l ∧ ∀ ch, ch ∈ l → ready w ch = false.
Proof.
  revert cs. induction l as [|ch l IH]; simpl; intros cs.
  - intros [= <-]. split; [done|]. intros ch Hin. by apply elem_of_nil in Hin.
  - destruct (ready w ch) eqn:Hrd; [done|].
    destruct (Updated_scan w l) as [cs'|]; simpl; [|done].
    intros [= <-]. destruct (IH _ eq_refl) as [-> Hall]. split; [done|].
    intros ch' [->|Hin]%elem_of_cons; eauto.
Qed.

Lemma Updated_scan_make_chan w l :
  Updated_scan (make_chan w).2 l = Updated_scan w l.
Proof. by apply Updated_scan_ready_irrel. Qed.

Lemma ready_case_irrel w1 w2 c :
  closed w1 = closed w2 → ready_case w1 c = ready_case w2 c.
Proof. intros Heq. destruct c; simpl; [|done]. unfold ready. by rewrite Heq. Qed.

(** A goroutine with a ready case, once scheduled, closes its channel. *)
Lemma wake_fires w i g :
  goroutines w !! i = Some g → existsb (ready_case w) (cases g) = true →
  ready (wake i w) (ret g) = true.
Proof.
  intros Hi Hex. unfold wake. rewrite Hi, Hex. apply ready_true. simpl.
  set_solver.
Qed.

(** The two ways [Updated] returns. *)
Lemma Updated_from_cases l done w :
  ((∃ ch, ch ∈ l ∧ ready w ch = true) ∧
   Updated_from l done w = (nchan w, close (nchan w) (make_chan w).2)) ∨
  ((∀ ch, ch ∈ l → ready w ch = false) ∧
   Updated_from l done w =
     (nchan w,
      spawn (mkWaiter (nchan w) (done :: (Some <$> l))) (make_chan w).2)).
Proof.
  unfold Updated_from. simpl.
  pose proof (Updated_scan_make_chan w l) as Heq. simpl in Heq.
  rewrite Heq. destruct (Updated_scan w l) as [cs|] eqn:Hs.
  - right. apply Updated_scan_Some in Hs as [-> Hall]. done.
  - left. by apply Updated_scan_None in Hs.
Qed.

(** C2, as the code has it: when some registration's captured signal has
    already fired, [Updated] returns a channel that is already closed and
    starts no goroutine.  When none has fired, it returns an open channel
    and starts the goroutine, also when the context is already cancelled;
    in that case the goroutine closes the returned channel the first time
    it is scheduled. *)
Theorem Updated_prefired tr0 s a done :
  run tr0 init = Some s →
  ((∃ k ch, mu_m a !! k = Some ch ∧ ready (world s) ch = true) →
   ∃ r w', Updated a done (world s) = (r, w') ∧
           ready w' r = true ∧ goroutines w' = goroutines (world s)) ∧
  (none_fired (world s) a →
   ∃ r w', Updated a done (world s) = (r, w') ∧
           ready w' r = false ∧
           goroutines w' =
             goroutines (world s) ++
               [mkWaiter r (done :: (Some <$> Values a))] ∧
           (ready_case (world s) done = true →
            ready (wake (length (goroutines (world s))) w') r = true)).
Proof.
  intros Hr. pose proof (wf_reachable _ _ Hr) as Hwf.
  set (w := world s) in *. split.
  - intros (k & ch & Hl & Hrd).
    unfold Updated.
    destruct (Updated_from_cases (Values a) done w) as [[_ ->]|[Hall _]].
    + eexists _, _. split; [done|]. split; [|done].
      apply ready_true. simpl. set_solver.
    + rewrite Hall in Hrd; [done|]. apply elem_of_Values. eauto.
  - intros Hnone.
    unfold Updated.
    destruct (Updated_from_cases (Values a) done w)
      as [[(ch & Hin & Hrd) _]|[_ ->]].
    + apply elem_of_Values in Hin as [k Hk].
      apply (map_Forall_lookup_1 _ _ _ _ Hnone) in Hk. congruence.
    + eexists _, _. split; [done|]. split; [|split; [done|]].
      * apply ready_false. simpl. intros Hin%(wf_closed _ Hwf). lia.
      * intros Hdone.
        apply (wake_fires _ _
                 (mkWaiter (nchan w) (done :: (Some <$> Values a)))).
        -- simpl. by apply list_lookup_middle.
        -- simpl. apply orb_true_iff. left.
           by rewrite <-Hdone; apply ready_case_irrel.
Qed.

(** C5: an [Update] whose transform fails returns the failure together
    with the unchanged value as new and as old value, and leaves the world
    as it was: the cell still holds the same value and channel, and no
    channel at all, so none handed out by an earlier [Get], gets closed. *)
Theorem Update_failure v fn w x ch err :
  Var_Get v w = Some (x, ch) → fn x = inl err →
  ∃ w', Var_Update (E:=E) v fn w = Some ((x, x, Some err), w') ∧
        w' = w ∧
        Var_Get v w' = Some (x, ch) ∧
        ∀ ch', ready w' ch' = ready w ch'.
Proof.
  unfold Var_Get, Var_Update.
  destruct (heap w !! v) as [c|] eqn:Hc; simpl; [|done].
  intros [= <- <-] ->. exists w. rewrite Hc. done.
Qed.

(** C9: [Set] on a cell, with whatever argument and so also with the value
    the cell already holds, closes the channel of the current generation,
    which was open, and installs the argument together with a new, open
    channel. *)
Theorem Set_always_fires tr0 s v x ch next :
  run tr0 init = Some s → Var_Get v (world s) = Some (x, ch) →
  ready (world s) ch = false ∧
  ∃ w' ch', Var_Set v next (world s) = Some w' ∧
            Var_Get v w' = Some (next, ch') ∧
            ch' ≠ ch ∧
            ready w' ch = true ∧
            ready w' ch' = false.
Proof.
  intros Hr. pose proof (wf_reachable _ _ Hr) as Hwf.
  unfold Var_Get, Var_Set.
  destruct (heap (world s) !! v) as [c|] eqn:Hc; simpl; [|done].
  intros [= <- <-].
  destruct (wf_heap _ Hwf _ _ Hc) as (_ & Hlt & Hopen & _).
  split; [by apply ready_false|].
  eexists _, (nchan (world s)). split; [done|]. simpl.
  rewrite lookup_insert_eq. simpl. repeat split.
  - lia.
  - apply ready_true. simpl. set_solver.
  - apply ready_false. simpl.
    intros [Heq%elem_of_singleton|Hin%(wf_closed _ Hwf)]%elem_of_union; lia.
Qed.

(** ** A generation and its signal *)

Lemma exec_unchanged v c o s s' :
  wf (world s) → heap (world s) !! v = Some c → exec o s = Some s' →
  changes v o s = false → heap (world s') !! v = Some c.
Proof.
  intros Hwf Hc Hx Hch. destruct s as [w a].
  destruct o as [x|v' x|v' fn|v'|order|done| |ch|i]; simpl in *.
  - injection Hx as <-; simpl. rewrite lookup_insert_ne; [done|].
    destruct (wf_heap _ Hwf _ _ Hc) as (? & _). lia.
  - apply bool_decide_eq_false in Hch. unfold Var_Set in Hx.
    destruct (heap w !! v') as [c'|]; simpl in Hx; [|done].
    injection Hx as <-; simpl. by rewrite lookup_insert_ne.
  - unfold Var_Update, Var_Set in Hx.
    destruct (heap w !! v') as [c'|] eqn:Hv'; simpl in Hx; [|done].
    destruct (fn (data c')) as [e|next]; simpl in Hx; injection Hx as <-;
      simpl; [done|].
    rewrite andb_true_r in Hch. apply bool_decide_eq_false in Hch.
    by rewrite lookup_insert_ne.
  - destruct (Aggregate a v' w); simpl in Hx; by simplify_eq.
  - by simplify_eq.
  - injection Hx as <-; simpl. unfold Updated, Updated_from; simpl.
    by destruct (Updated_scan _ _).
  - by simplify_eq.
  - injection Hx as <-; simpl. unfold cancel. by case_bool_decide.
  - injection Hx as <-; simpl. unfold wake.
    destruct (goroutines w !! i); [|done]. by destruct (existsb _ _).
Qed.

Lemma exec_changed v c o s s' :
  heap (world s) !! v = Some c → exec o s = Some s' →
  changes v o s = true → updated c ∈ closed (world s').
Proof.
  intros Hc Hx Hch. destruct s as [w a].
  destruct o as [x|v' x|v' fn|v'|order|done| |ch|i]; simpl in *;
    try discriminate.
  - apply bool_decide_eq_true in Hch as ->. unfold Var_Set in Hx.
    rewrite Hc in Hx. simpl in Hx. injection Hx as <-; simpl. set_solver.
  - apply andb_true_iff in Hch as [->%bool_decide_eq_true Hfn].
    unfold Var_Update, Var_Set in Hx. rewrite Hc in Hx, Hfn. simpl in Hx.
    destruct (fn (data c)) as [e|next]; [done|]. simpl in Hx.
    injection Hx as <-; simpl. set_solver.
Qed.

Lemma run_changed_during v c tr s s' :
  wf (world s) → heap (world s) !! v = Some c → run tr s = Some s' →
  if changed_during v tr s then updated c ∈ closed (world s')
  else heap (world s') !! v = Some c.
Proof.
  revert s. induction tr as [|o tr IH]; simpl; intros s Hwf Hc Hr.
  - by simplify_eq.
  - destruct (exec o s) as [s1|] eqn:Hx; simpl in Hr; [|done].
    destruct (changes v o s) eqn:Hch; simpl.
    + eapply run_closed_mono; [done|]. by eapply exec_changed.
    + apply IH; [by eapply wf_exec| |done]. by eapply exec_unchanged.
Qed.

(** C7: [Get], [Set] and [Update] being atomic steps, the channel a [Get]
    returns next to a value is open at that moment, and after any further
    run of the system it is closed if and only if a [Set], or an [Update]
    whose transform succeeded, was performed on the cell during that run;
    as long as there was none, the cell still holds the very value and
    channel the [Get] returned. *)
Theorem Get_signal_tracks_change tr0 s v x ch tr s' :
  run tr0 init = Some s → Var_Get v (world s) = Some (x, ch) →
  run tr s = Some s' →
  ready (world s) ch = false ∧
  (ready (world s') ch = true ↔ changed_during v tr s = true) ∧
  (changed_during v tr s = false → Var_Get v (world s') = Some (x, ch)).
Proof.
  intros Hr0 Hget Hr. pose proof (wf_reachable _ _ Hr0) as Hwf.
  unfold Var_Get in Hget.
  destruct (heap (world s) !! v) as [c|] eqn:Hc; simpl in Hget; [|done].
  injection Hget as <- <-.
  destruct (wf_heap _ Hwf _ _ Hc) as (_ & _ & Hopen & _).
  pose proof (run_changed_during v c tr s s' Hwf Hc Hr) as Hcd.
  pose proof (wf_run _ _ _ Hwf Hr) as Hwf'.
  split; [by apply ready_false|].
  destruct (changed_during v tr s).
  - split; [|done]. split; [done|]. intros _. by apply ready_true.
  - destruct (wf_heap _ Hwf' _ _ Hcd) as (_ & _ & Hopen' & _). split.
    + split; [|done]. by intros Hcl%ready_true.
    + intros _. unfold Var_Get. by rewrite Hcd.
Qed.

(** ** The goroutine of [Updated] *)

Lemma existsb_cases w done l :
  existsb (ready_case w) (done :: (Some <$> l)) = true ↔
  ready_case w done = true ∨ ∃ ch, ch ∈ l ∧ ready w ch = true.
Proof.
  simpl. rewrite orb_true_iff. apply or_iff_compat_l.
  induction l as [|ch l IH]; simpl.
  - split; [done|]. intros (ch & Hin & _). by apply elem_of_nil in Hin.
  - rewrite orb_true_iff, IH. split.
    + intros [Hrd|(ch' & Hin & Hrd)]; [exists ch|exists ch']; split;
        try done; [left|by right].
    + intros (ch' & [->|Hin]%elem_of_cons & Hrd); [by left|right; eauto].
Qed.

Lemma watched_fired_mono done snapshot w w' :
  closed w ⊆ closed w' →
  watched_fired done snapshot w → watched_fired done snapshot w'.
Proof.
  intros Hsub [Hd|(ch & Hin & Hrd)].
  - left. destruct done as [d|]; [|done]. simpl in *.
    apply ready_true. apply ready_true in Hd. by apply Hsub.
  - right. exists ch. split; [done|].
    apply ready_true. apply ready_true in Hrd. by apply Hsub.
Qed.

Lemma NoDup_fmap_elem_eq {A B} (f : A → B) (l : list A) x y :
  NoDup (f <$> l) → x ∈ l → y ∈ l → f x = f y → x = y.
Proof.
  intros Hnd [i Hx]%list_elem_of_lookup [j Hy]%list_elem_of_lookup Heq.
  assert (i = j) as ->.
  { eapply NoDup_lookup; [done| |].
    - by rewrite list_lookup_fmap, Hx.
    - by rewrite list_lookup_fmap, Hy, Heq. }
  congruence.
Qed.

Lemma elem_of_delete_ne {A} (l : list A) i x y :
  l !! i = Some y → x ∈ l → x ≠ y → x ∈ delete i l.
Proof.
  intros Hi Hin Hne. rewrite <-(take_drop_middle l i y Hi) in Hin.
  rewrite delete_take_drop.
  apply elem_of_app in Hin as [Hin|[->|Hin]%elem_of_cons]; [|done|];
    apply elem_of_app; eauto.
Qed.

Lemma Updated_inv_exec r done snapshot o s s' :
  wf (world s) → exec o s = Some s' →
  Updated_inv r done snapshot (world s) →
  Updated_inv r done snapshot (world s').
Proof.
  intros Hwf Hx Hinv. pose proof (exec_closed_mono _ _ _ Hx) as Hmono.
  destruct Hinv as [[Hcl Hw]|[Hop Hg]].
  { left. split; [by apply Hmono|by eapply watched_fired_mono]. }
  destruct (wf_go _ Hwf _ Hg) as (Hlt & _ & Hnctx & Hnheap). simpl in *.
  destruct s as [w a].
  destruct o as [x|v x|v fn|v|order|done'| |ch|i]; simpl in *.
  - injection Hx as <-. by right.
  - unfold Var_Set in Hx.
    destruct (heap w !! v) as [c|] eqn:Hv; simpl in Hx; [|done].
    injection Hx as <-; simpl. right. split; [|done].
    specialize (Hnheap _ _ Hv). set_solver.
  - unfold Var_Update, Var_Set in Hx.
    destruct (heap w !! v) as [c|] eqn:Hv; simpl in Hx; [|done].
    destruct (fn (data c)); simpl in Hx; injection Hx as <-; simpl;
      [by right|].
    right. split; [|done]. specialize (Hnheap _ _ Hv). set_solver.
  - destruct (Aggregate a v w); simpl in Hx; [|done].
    injection Hx as <-. by right.
  - injection Hx as <-. by right.
  - injection Hx as <-; simpl. right. unfold Updated, Updated_from; simpl.
    destruct (Updated_scan _ _); simpl.
    + split; [done|]. apply elem_of_app. by left.
    + split; [|done]. intros [Heq%elem_of_singleton|?]%elem_of_union;
        [lia|done].
  - injection Hx as <-. by right.
  - injection Hx as <-; simpl. unfold cancel.
    case_bool_decide as Hin; [|by right]. right; simpl. split; [|done].
    intros [Heq%elem_of_singleton|?]%elem_of_union; [|done]. congruence.
  - injection Hx as <-; simpl. unfold wake.
    destruct (goroutines w !! i) as [g'|] eqn:Hi; [|by right].
    destruct (existsb (ready_case w) (cases g')) eqn:Hex; [|by right].
    destruct (decide (ret g' = r)) as [Heq|Hne].
    + left; simpl. split; [set_solver|].
      assert (g' = mkWaiter r (done :: (Some <$> snapshot))) as ->.
      { eapply (NoDup_fmap_elem_eq ret); [apply (wf_rets _ Hwf)| |done..].
        by eapply list_elem_of_lookup_2. }
      simpl cases in Hex. apply existsb_cases in Hex.
      eapply watched_fired_mono; [|exact Hex]. simpl. set_solver.
    + right; simpl. split; [set_solver|].
      eapply elem_of_delete_ne; [done..|]. intros Heq. apply Hne.
      by rewrite <-Heq.
Qed.

Lemma Updated_inv_run r done snapshot tr s s' :
  wf (world s) → run tr s = Some s' →
  Updated_inv r done snapshot (world s) →
  Updated_inv r done snapshot (world s').
Proof.
  revert s. induction tr as [|o tr IH]; simpl; intros s Hwf Hr Hinv.
  - by simplify_eq.
  - destruct (exec o s) as [s1|] eqn:Hx; simpl in Hr; [|done].
    eapply IH; [|done|]; [by eapply wf_exec|by eapply Updated_inv_exec].
Qed.

(** C4: the channel [Updated] returns follows the registry as it was when
    the call collected its channels.  Whatever the rest of the program does
    between that snapshot and the remainder of the call, and in any run
    after the call, with registrations added or removed at will, the
    channel is closed only if the context's signal or the signal captured
    by a registration that was in the registry at the snapshot has fired;
    if one of those has fired, the channel is closed or is closed by the
    next scheduling of the goroutine the call started; and as long as the
    channel is open, that goroutine is in the pool and waits for exactly
    the context's signal and the signals of the registrations of the
    snapshot. *)
Theorem Updated_watches_snapshot tr0 s0 (between : list (op T E)) s done r w1
    tr s' :
  run tr0 init = Some s0 →
  run between s0 = Some s →
  Updated_from (Values (agg s0)) done (world s) = (r, w1) →
  run tr (mkSys w1 (agg s)) = Some s' →
  (ready (world s') r = true →
   ready_case (world s') done = true ∨
   ∃ k ch, mu_m (agg s0) !! k = Some ch ∧ ready (world s') ch = true) ∧
  (ready_case (world s') done = true ∨
   (∃ k ch, mu_m (agg s0) !! k = Some ch ∧ ready (world s') ch = true) →
   ∃ i, ready (wake i (world s')) r = true) ∧
  (ready (world s') r = false →
   ∃ i g, goroutines (world s') !! i = Some g ∧ ret g = r ∧
          ∀ ch, Some ch ∈ cases g ↔
                done = Some ch ∨ ∃ k, mu_m (agg s0) !! k = Some ch).
Proof.
  intros Hr0 Hbt Hupd Hr.
  pose proof (wf_run _ _ _ (wf_reachable _ _ Hr0) Hbt) as Hwf.
  assert (∀ w, watched_fired done (Values (agg s0)) w ↔
               ready_case w done = true ∨
               ∃ k ch, mu_m (agg s0) !! k = Some ch ∧ ready w ch = true)
    as Hwatched.
  { intros w. unfold watched_fired. apply or_iff_compat_l. split.
    - intros (ch & Hin & Hrd). apply elem_of_Values in Hin as [k Hk]. eauto.
    - intros (k & ch & Hk & Hrd). exists ch. split; [|done].
      apply elem_of_Values. eauto. }
  set (l := Values (agg s0)) in *.
  assert (wf w1) as Hwf1.
  { pose proof (wf_Updated_from l done _ Hwf) as H1. by rewrite Hupd in H1. }
  assert (Updated_inv r done l w1) as Hinv1.
  { destruct (Updated_from_cases l done (world s))
      as [[(ch & Hin & Hrd) Heq]|[Hall Heq]];
      rewrite Heq in Hupd; injection Hupd as <- <-.
    - left. split; [simpl; set_solver|]. right. exists ch. split; [done|].
      apply ready_true. simpl. apply ready_true in Hrd. set_solver.
    - right. simpl. split.
      + intros Hin%(wf_closed _ Hwf). lia.
      + apply elem_of_app. right. left. }
  rewrite <-Hwatched.
  pose proof (Updated_inv_run r done _ tr (mkSys w1 (agg s)) s' Hwf1 Hr Hinv1)
    as [[Hcl Hw]|[Hop Hg]].
  - split; [done|]. split.
    + intros _. exists 0. apply ready_true. by apply wake_closed.
    + by intros Hopen%ready_false.
  - split; [by intros Hcl%ready_true|]. split.
    + intros Hw. apply list_elem_of_lookup in Hg as [i Hi]. exists i.
      apply (wake_fires _ _ _ Hi). simpl cases. by apply existsb_cases.
    + intros _. apply list_elem_of_lookup in Hg as [i Hi].
      exists i, (mkWaiter r (done :: (Some <$> l))). split; [done|].
      split; [done|]. intros ch. simpl.
      rewrite elem_of_cons, list_elem_of_fmap. unfold l. split.
      * intros [->|(ch' & [= <-] & Hin)]; [by left|right].
        by apply elem_of_Values.
      * intros [->|Hk]; [by left|right]. exists ch. split; [done|].
        by apply elem_of_Values.
Qed.

(** ** Handles *)

Lemma run_registered k tr s s' :
  run tr s = Some s' → k ∈ dom (mu_m (agg s')) →
  k ∈ dom (mu_m (agg s)) ∨ Exists (λ o, registers k o = true) tr.
Proof.
  revert s. induction tr as [|o tr IH]; simpl; intros s Hr Hk.
  - simplify_eq. by left.
  - destruct (exec o s) as [s1|] eqn:Hx; simpl in Hr; [|done].
    destruct (IH _ Hr Hk) as [Hk1|Hex]; [|right; by apply Exists_cons_tl].
    destruct (registers k o) eqn:Hreg; [right; by apply Exists_cons_hd|].
    left. destruct (decide (k ∈ dom (mu_m (agg s)))) as [|Hn]; [done|].
    by destruct (exec_unregistered k o s s1 Hreg Hx Hn).
Qed.

(** C8: the handle [Choose] returns is the address of a registered cell:
    in any run from an empty aggregation it is a cell that the run passed
    to [Aggregate]; and registering a cell, changing it and choosing with
    that cell visited first returns the cell itself, as does any [Choose]
    when the cell is the only one registered. *)
Theorem Choose_returns_registered_cell :
  (∀ tr s order k a',
     run tr init = Some s →
     Choose order (agg s) (world s) = (Some k, a') →
     Exists (λ o, registers k o = true) tr) ∧
  (∀ a w v x a1 y w2 order,
     Aggregate a v w = Some (x, a1) → Var_Set v y w = Some w2 →
     Choose (v :: order) a1 w2 = (Some v, mkAgg (delete v (mu_m a1)))) ∧
  (∀ w v x a1 y w2 order,
     Aggregate NewAggregation v w = Some (x, a1) →
     Var_Set v y w = Some w2 → v ∈ order →
     Choose order a1 w2 = (Some v, NewAggregation)).
Proof.
  assert (∀ a w v x a1 y w2,
            Aggregate a v w = Some (x, a1) → Var_Set v y w = Some w2 →
            ∃ ch, mu_m a1 = <[v := ch]> (mu_m a) ∧ ready w2 ch = true)
    as Hfire.
  { intros a w v x a1 y w2. unfold Aggregate, Var_Get, Var_Set.
    destruct (heap w !! v) as [c|]; simpl; [|done].
    intros [= <- <-] [= <-]. exists (updated c). split; [done|].
    apply ready_true. simpl. set_solver. }
  split; [|split].
  - intros tr s order k a' Hr Hc.
    assert (k ∈ dom (mu_m (agg s))) as Hk
      by (apply (Choose_registered order _ (world s)); by rewrite Hc).
    destruct (run_registered k tr init s Hr Hk) as [Hk0|Hex]; [|done].
    simpl in Hk0. set_solver.
  - intros a w v x a1 y w2 order Hagg Hset.
    destruct (Hfire _ _ _ _ _ _ _ Hagg Hset) as (ch & Hm & Hrd).
    unfold Choose. simpl. rewrite Hm, lookup_insert_eq, Hrd. done.
  - intros w v x a1 y w2 order Hagg Hset Hin.
    destruct (Hfire _ _ _ _ _ _ _ Hagg Hset) as (ch & Hm & Hrd).
    simpl in Hm. unfold Choose.
    destruct (Choose_range w2 (mu_m a1) order) as [[k m']|] eqn:Hc.
    + apply Choose_range_Some in Hc as (ch' & Hl & _ & -> & _).
      rewrite Hm in Hl. apply lookup_insert_Some in Hl as [[<- _]|[_ Hl]].
      * rewrite Hm, delete_insert_eq, delete_empty. done.
      * by rewrite lookup_empty in Hl.
    + exfalso. pose proof (proj1 (Choose_range_None _ _ _) Hc v ch Hin) as Hf.
      rewrite Hm, lookup_insert_eq in Hf. specialize (Hf eq_refl).
      congruence.
Qed.

End notify_properties.

(** * Properties of the waiting helpers *)
Section notifyx_properties.
Context {T E : Type} `{EqDecision T}.
Implicit Types (s : System T) (sc : sched (T:=T) (E:=E)) (ctx : Context).

Lemma interleave_closed_mono sc s b s' rest :
  interleave sc s = Returned b s' rest →
  closed (world s) ⊆ closed (world s').
Proof.
  destruct sc as [|[env pick] sc']; simpl; [done|].
  destruct (run env s) as [s1|] eqn:Hr; [|done].
  intros [= <- <- <-]. by eapply run_closed_mono.
Qed.





End notifyx_properties.

(** * The properties at work on small programs

    Cells hold numbers; a transform fails with the unit error. *)
Section examples.

Abbreviation op' := (op nat unit).
Abbreviation run' := (run (T:=nat) (E:=unit)).

(** Cell 0 holds 7, was registered and then set to 8: [Aggregate] on it
    again keeps [Len] at 1 and stores the open channel 1 of the current
    generation. *)
Lemma Aggregate_again_witness :
  ∃ s, run' [OpVarOf 7; OpAggregate 0; OpSet 0 8] init = Some s ∧
       mu_m (agg s) !! 0 = Some 0 ∧
       ∃ x cur a',
         Var_Get 0 (world s) = Some (x, cur) ∧
         Aggregate (agg s) 0 (world s) = Some (x, a') ∧
         Len a' = Len (agg s) ∧
         mu_m a' = <[0 := cur]> (mu_m (agg s)) ∧
         ready (world s) cur = false ∧
         (ready (world s) 0 = false → a' = agg s).
Proof.
  eexists. split; [reflexivity|]. split; [reflexivity|].
  apply (Aggregate_again (E:=unit) [OpVarOf 7; OpAggregate 0; OpSet 0 8]);
    reflexivity.
Defined.

(** The same program shows that the second [Aggregate] does disturb the
    registration: the captured channel 0, already closed, is replaced by
    the open channel 1, and the change that [Choose] would have reported
    is no longer reported. *)
Lemma Aggregate_again_disturbs_signal :
  ∃ s a',
    run' [OpVarOf 7; OpAggregate 0; OpSet 0 8] init = Some s ∧
    mu_m (agg s) !! 0 = Some 0 ∧
    Aggregate (agg s) 0 (world s) = Some (8, a') ∧
    mu_m a' !! 0 = Some 1 ∧
    mu_m a' !! 0 ≠ mu_m (agg s) !! 0 ∧
    (Choose [0] (agg s) (world s)).1 = Some 0 ∧
    (Choose [0] a' (world s)).1 = None.
Proof.
  eexists _, _. split; [reflexivity|]. split; [reflexivity|].
  split; [reflexivity|]. split; [reflexivity|]. split; [|split].
  - vm_compute. discriminate.
  - reflexivity.
  - reflexivity.
Qed.

(** A context is created and cancelled, nothing is registered: [Updated]
    with that context returns the open channel 1 and starts a goroutine,
    which closes the channel at its first scheduling. *)
Lemma Updated_prefired_witness :
  ∃ s, run' [OpWithCancel; OpCancel 0] init = Some s ∧
       none_fired (world s) NewAggregation ∧
       ∃ r w', Updated NewAggregation (Some 0) (world s) = (r, w') ∧
               ready w' r = false ∧
               goroutines w' =
                 goroutines (world s) ++
                   [mkWaiter r (Some 0 :: (Some <$> Values NewAggregation))] ∧
               (ready_case (world s) (Some 0) = true →
                ready (wake (length (goroutines (world s))) w') r = true).
Proof.
  eexists. split; [reflexivity|]. split; [apply map_Forall_empty|].
  apply (Updated_prefired (E:=unit) [OpWithCancel; OpCancel 0]).
  - reflexivity.
  - apply map_Forall_empty.
Defined.

(** The cancellation signal has fired at the call, yet the channel
    [Updated] returns is open and a goroutine has been started. *)
Lemma Updated_cancelled_not_prefired :
  ∃ s r w',
    run' [OpWithCancel; OpCancel 0] init = Some s ∧
    ready_case (world s) (Some 0) = true ∧
    Updated (agg s) (Some 0) (world s) = (r, w') ∧
    ready w' r = false ∧
    goroutines (world s) = [] ∧
    goroutines w' = [mkWaiter 1 [Some 0]].
Proof. eexists _, _, _. repeat split; reflexivity. Qed.

(** Cell 0 is registered and set: [Choose] returns it, [Len] goes from 1
    to 0, and after the cell is set once more no [Choose] returns it. *)
Lemma Choose_consumes_once_witness :
  ∃ s, run' [OpVarOf 7; OpAggregate 0; OpSet 0 8] init = Some s ∧
       Choose [0] (agg s) (world s) = (Some 0, NewAggregation) ∧
       Len (agg s) = S (Len NewAggregation) ∧
       ∃ s', run' [OpSet 0 9; OpChoose [0]]
                  (mkSys (world s) NewAggregation) = Some s' ∧
             (Choose [0] (agg s') (world s')).1 ≠ Some 0.
Proof.
  eexists. split; [reflexivity|]. split; [reflexivity|].
  match goal with
  | |- Len (agg ?s) = _ ∧ _ =>
      destruct (Choose_consumes_once (T:=nat) (E:=unit)
                  [0] (agg s) (world s) 0 NewAggregation eq_refl)
        as (_ & _ & _ & Hlen & Hlater)
  end.
  split; [exact Hlen|]. eexists. split; [reflexivity|].
  refine (proj2 (Hlater [OpSet 0 9; OpChoose [0]] _ _ eq_refl) [0]).
  repeat constructor.
Defined.

(** Cell 0 is registered with channel 0 and [Updated] collects that
    channel.  Before the call goes on, cell 1 is created and registered;
    the call then returns channel 2.  Cell 1 is set and the goroutine is
    scheduled: channel 2 stays open, though cell 1 is in the registry and
    has changed, and the goroutine waits for channel 0 alone.  Cell 0 is
    then set and the goroutine scheduled again: channel 2 is closed, the
    signal of a registration of the snapshot having fired. *)
Lemma Updated_watches_snapshot_witness :
  ∃ s0 s w1 s1 s2,
    run' [OpVarOf 7; OpAggregate 0] init = Some s0 ∧
    run' [OpVarOf 9; OpAggregate 1] s0 = Some s ∧
    Updated_from (Values (agg s0)) None (world s) = (2, w1) ∧
    run' [OpSet 1 10; OpWake 0] (mkSys w1 (agg s)) = Some s1 ∧
    run' [OpSet 1 10; OpWake 0; OpSet 0 8; OpWake 0] (mkSys w1 (agg s))
      = Some s2 ∧
    mu_m (agg s1) !! 1 = Some 1 ∧
    ready (world s1) 1 = true ∧
    ready (world s1) 2 = false ∧
    (∃ i g, goroutines (world s1) !! i = Some g ∧ ret g = 2 ∧
            ∀ ch, Some ch ∈ cases g ↔
                  None = Some ch ∨ ∃ k, mu_m (agg s0) !! k = Some ch) ∧
    mu_m (agg s0) !! 0 = Some 0 ∧
    ready (world s2) 0 = true ∧
    ready (world s2) 2 = true ∧
    (ready (world s2) 2 = true →
     ready_case (world s2) None = true ∨
     ∃ k ch, mu_m (agg s0) !! k = Some ch ∧ ready (world s2) ch = true) ∧
    (ready_case (world s2) None = true ∨
     (∃ k ch, mu_m (agg s0) !! k = Some ch ∧ ready (world s2) ch = true) →
     ∃ i, ready (wake i (world s2)) 2 = true).
Proof.
  eexists _, _, _, _, _.
  split; [vm_compute; reflexivity|]. split; [vm_compute; reflexivity|].
  split; [vm_compute; reflexivity|]. split; [vm_compute; reflexivity|].
  split; [vm_compute; reflexivity|].
  split; [vm_compute; reflexivity|]. split; [vm_compute; reflexivity|].
  split; [vm_compute; reflexivity|].
  split.
  { eapply (Updated_watches_snapshot (E:=unit) [OpVarOf 7; OpAggregate 0] _
              [OpVarOf 9; OpAggregate 1] _ None 2 _ [OpSet 1 10; OpWake 0]);
      vm_compute; reflexivity. }
  split; [vm_compute; reflexivity|]. split; [vm_compute; reflexivity|].
  split; [vm_compute; reflexivity|].
  split; intros Hp;
    eapply (Updated_watches_snapshot (E:=unit) [OpVarOf 7; OpAggregate 0] _
              [OpVarOf 9; OpAggregate 1] _ None 2 _
              [OpSet 1 10; OpWake 0; OpSet 0 8; OpWake 0]);
    try (vm_compute; reflexivity); exact Hp.
Defined.

(** A failing transform on the cell holding 7 with channel 0. *)
Lemma Update_failure_witness :
  ∃ w', Var_Update 0 (λ _ : nat, inl tt) (VarOf 7 empty_world).2
          = Some ((7, 7, Some tt), w') ∧
        w' = (VarOf 7 empty_world).2 ∧
        Var_Get 0 w' = Some (7, 0) ∧
        ∀ ch', ready w' ch' = ready (VarOf 7 empty_world).2 ch'.
Proof.
  apply (Update_failure (E:=unit) 0 (λ _, inl tt) (VarOf 7 empty_world).2
           7 0 tt); reflexivity.
Defined.

(** One registration, whose signal has not fired: [Choose] returns nil. *)
Lemma Choose_only_fired_witness :
  ∃ s, run' [OpVarOf 7; OpAggregate 0] init = Some s ∧
       mu_m (agg s) !! 0 = Some 0 ∧
       Choose [0] (agg s) (world s) = (None, agg s).
Proof.
  eexists. split; [reflexivity|]. split; [reflexivity|].
  match goal with
  | |- Choose _ (agg ?s) _ = _ =>
      apply (proj1 (Choose_only_fired (T:=nat) [0] (agg s) (world s)))
  end.
  unfold none_fired. refine (bool_decide_unpack _ _). vm_compute. exact I.
Defined.

(** The cell holds 7 with channel 0.  A failed [Update] followed by a
    [Set] to the same value 7 counts as a change, and channel 0 is closed
    afterwards. *)
Lemma Get_signal_tracks_change_witness :
  ∃ s s',
    run' [OpVarOf 7] init = Some s ∧
    Var_Get 0 (world s) = Some (7, 0) ∧
    run' [OpUpdate 0 (λ _, inl tt); OpSet 0 7] s = Some s' ∧
    changed_during 0 [OpUpdate 0 (λ _, inl tt); OpSet 0 7] s = true ∧
    ready (world s) 0 = false ∧
    (ready (world s') 0 = true ↔
     changed_during 0 [OpUpdate 0 (λ _, inl tt); OpSet 0 7] s = true) ∧
    (changed_during 0 [OpUpdate 0 (λ _, inl tt); OpSet 0 7] s = false →
     Var_Get 0 (world s') = Some (7, 0)).
Proof.
  eexists _, _. split; [reflexivity|]. split; [reflexivity|].
  split; [reflexivity|]. split; [reflexivity|].
  apply (Get_signal_tracks_change (E:=unit) [OpVarOf 7]); reflexivity.
Defined.

(** Registering cell 0, setting it and choosing gives back address 0. *)
Lemma Choose_returns_registered_cell_witness :
  ∃ a1 w2,
    Aggregate NewAggregation 0 (VarOf 7 empty_world).2 = Some (7, a1) ∧
    Var_Set 0 8 (VarOf 7 empty_world).2 = Some w2 ∧
    Choose [3; 0] a1 w2 = (Some 0, NewAggregation).
Proof.
  eexists _, _. split; [reflexivity|]. split; [reflexivity|].
  refine (proj2 (proj2 (Choose_returns_registered_cell (T:=nat) (E:=unit)))
            (VarOf 7 empty_world).2 0 7 _ 8 _ [3; 0] eq_refl eq_refl _).
  refine (bool_decide_unpack _ _). vm_compute. exact I.
Defined.

(** Setting the cell that holds 7 to 7 closes channel 0 and installs the
    open channel 1. *)
Lemma Set_always_fires_witness :
  ∃ s, run' [OpVarOf 7] init = Some s ∧
       Var_Get 0 (world s) = Some (7, 0) ∧
       ready (world s) 0 = false ∧
       ∃ w' ch', Var_Set 0 7 (world s) = Some w' ∧
                 Var_Get 0 w' = Some (7, ch') ∧
                 ch' ≠ 0 ∧
                 ready w' 0 = true ∧
                 ready w' ch' = false.
Proof.
  eexists. split; [reflexivity|]. split; [reflexivity|].
  apply (Set_always_fires (E:=unit) [OpVarOf 7] _ 0 7 0 7); reflexivity.
Defined.


(** The repository's test TestAggregationDrain, with two cells: a double
    registration returns the value both times, [Len] is 2, [Choose] finds
    nothing and the channel of [Updated] is open; after an [Update] of
    cell 0 the goroutine closes the channel, [Choose] returns cell 0 and
    [Len] is 1. *)
Example TestAggregationDrain :
  ∃ s w1 s2 a3,
    run' [OpVarOf 0; OpAggregate 0; OpVarOf 1; OpAggregate 1] init = Some s ∧
    Aggregate (agg s) 0 (world s) = Some (0, agg s) ∧
    Len (agg s) = 2 ∧
    Choose [1; 0] (agg s) (world s) = (None, agg s) ∧
    Updated (agg s) (Some 9) (world s) = (2, w1) ∧
    ready w1 2 = false ∧
    run' [OpUpdate 0 (λ old, inr (old + 2)); OpWake 0] (mkSys w1 (agg s))
      = Some s2 ∧
    ready (world s2) 2 = true ∧
    Choose [1; 0] (agg s2) (world s2) = (Some 0, a3) ∧
    Var_Get 0 (world s2) = Some (2, 3) ∧
    Len a3 = 1.
Proof. eexists _, _, _, _. repeat split; reflexivity. Qed.

(** The repository's test TestAggregationImmediate, with two cells: both
    are set right after their registration, the channel of [Updated] is
    closed on return, and [Choose] yields two handles and then nothing. *)
Example TestAggregationImmediate :
  ∃ s w1 a1 a2,
    run' [OpVarOf 0; OpAggregate 0; OpSet 0 99;
          OpVarOf 1; OpAggregate 1; OpSet 1 99] init = Some s ∧
    Len (agg s) = 2 ∧
    Updated (agg s) (Some 9) (world s) = (4, w1) ∧
    ready w1 4 = true ∧
    goroutines w1 = [] ∧
    Choose [0; 1] (agg s) w1 = (Some 0, a1) ∧
    Choose [0; 1] a1 w1 = (Some 1, a2) ∧
    Choose [0; 1] a2 w1 = (None, a2) ∧
    Len a2 = 0.
Proof. eexists _, _, _, _. repeat split; reflexivity. Qed.

End examples.

(** * Further properties of the aggregation *)
Section notify_more_properties.
Context {T E : Type}.
Implicit Types (w : World T) (s : System T) (a : Aggregation).
Implicit Types (o : op T E) (tr : list (op T E)).
Implicit Types (v k : var) (ch : chan).

(** X1: [Aggregate] stores, under the cell, the channel that [Get] returns
    next to the value it hands back, and touches no other entry; [Len]
    grows by one when the cell was not registered and stays as it is when
    it was. *)
Theorem Aggregate_registers a v w x a' :
  Aggregate a v w = Some (x, a') →
  ∃ ch, Var_Get v w = Some (x, ch) ∧
        mu_m a' !! v = Some ch ∧
        (∀ k, k ≠ v → mu_m a' !! k = mu_m a !! k) ∧
        Len a' = if decide (v ∈ dom (mu_m a)) then Len a else S (Len a).
Proof.
  unfold Aggregate.
  destruct (Var_Get v w) as [[r ch]|]; simpl; [|done].
  intros [= <- <-]. exists ch. simpl. split; [done|].
  split; [by rewrite lookup_insert_eq|]. split.
  - intros k Hne. by rewrite lookup_insert_ne.
  - unfold Len; simpl. case_decide as Hin.
    + apply map_size_insert_Some. by apply elem_of_dom.
    + apply map_size_insert_None. by apply not_elem_of_dom.
Qed.

Lemma fired_lookup w a k ch :
  fired w a !! k = Some ch ↔ mu_m a !! k = Some ch ∧ ready w ch = true.
Proof. unfold fired. by rewrite map_lookup_filter_Some. Qed.

Lemma fired_empty w a : fired w a = ∅ ↔ none_fired w a.
Proof.
  rewrite map_empty. unfold none_fired. rewrite map_Forall_lookup. split.
  - intros Hnone k ch Hl. destruct (ready w ch) eqn:Hrd; [|done].
    specialize (Hnone k). by rewrite (proj2 (fired_lookup w a k ch)) in Hnone.
  - intros Hall k. destruct (fired w a !! k) as [ch|] eqn:Hf; [|done].
    apply fired_lookup in Hf as [Hl Hrd]. apply Hall in Hl. congruence.
Qed.

Lemma Choose_none_fired order a w :
  none_fired w a → Choose order a w = (None, a).
Proof.
  intros Hnone. unfold Choose.
  destruct (Choose_range _ _ _) as [[k m']|] eqn:Hc; [|done].
  apply Choose_range_Some in Hc as (ch & Hl & Hrd & _).
  apply (map_Forall_lookup_1 _ _ _ _ Hnone) in Hl. congruence.
Qed.

Lemma Choose_None_visits order a w :
  visits_all order a → (Choose order a w).1 = None → fired w a = ∅.
Proof.
  intros Hvis Hc. apply fired_empty. apply map_Forall_lookup. intros k ch Hl.
  unfold Choose in Hc.
  destruct (Choose_range w (mu_m a) order) as [[k' m']|] eqn:Hr; [done|].
  eapply (proj1 (Choose_range_None _ _ _) Hr k ch); [|done].
  apply (elem_of_list_to_set (C:=gset var)). apply Hvis.
  by eapply elem_of_dom_2.
Qed.

(** X2: when the iteration visits the whole registry, [Choose] returns
    nothing exactly when no registration has fired; otherwise it returns
    a cell whose registration has fired and deletes that registration. *)
Theorem Choose_finds_fired order a w :
  visits_all order a →
  ((Choose order a w).1 = None ↔ fired w a = ∅) ∧
  (fired w a ≠ ∅ →
   ∃ k ch, Choose order a w = (Some k, mkAgg (delete k (mu_m a))) ∧
           fired w a !! k = Some ch).
Proof.
  intros Hvis. split; [split|].
  - by apply Choose_None_visits.
  - intros Hnone%fired_empty.
    by rewrite (Choose_none_fired order a w Hnone).
  - intros Hne. destruct (Choose order a w) as [[k|] a'] eqn:Hc.
    + apply Choose_Some in Hc as (ch & Hl & Hrd & -> & _).
      exists k, ch. split; [done|]. by apply fired_lookup.
    + destruct Hne. apply (Choose_None_visits order); [done|].
      by rewrite Hc.
Qed.

Lemma visits_all_delete order a k :
  visits_all order a → visits_all order (mkAgg (delete k (mu_m a))).
Proof. unfold visits_all; simpl. rewrite dom_delete_L. set_solver. Qed.

Lemma fired_delete w a k :
  fired w (mkAgg (delete k (mu_m a))) = delete k (fired w a).
Proof. unfold fired; simpl. apply map_filter_delete. Qed.

(** X3: the loop that calls [Choose] until it finds nothing, run while no
    cell changes with every call visiting the whole registry, returns each
    cell whose registration has fired exactly once and no other cell; it
    leaves the other registrations as they were, none of them fired, and
    [Len] has gone down by the number of handles returned. *)
Theorem drain_finds_all orders a w :
  Forall (λ order, visits_all order a) orders →
  size (fired w a) < length orders →
  ∃ found a',
    drain orders a w = (found, a') ∧
    NoDup found ∧
    (∀ k, k ∈ found ↔ k ∈ dom (fired w a)) ∧
    length found = size (fired w a) ∧
    (∀ k, mu_m a' !! k = if decide (k ∈ found) then None else mu_m a !! k) ∧
    none_fired w a' ∧
    Len a = length found + Len a'.
Proof.
  revert a. induction orders as [|order rest IH]; intros a Hvis Hsz;
    [simpl in Hsz; lia|].
  apply Forall_cons in Hvis as [Hv Hrest]. simpl.
  destruct (Choose order a w) as [[k|] a1] eqn:Hc.
  - apply Choose_Some in Hc as (ch & Hl & Hrd & -> & _).
    assert (fired w a !! k = Some ch) as Hf by (by apply fired_lookup).
    pose proof (size_delete_Some _ _ _ Hf) as Hsize.
    destruct (IH (mkAgg (delete k (mu_m a)))) as
      (found & a' & Hd & Hnd & Hin & Hlen & Hlk & Hnone & HLen).
    { eapply Forall_impl; [exact Hrest|]. intros o. apply visits_all_delete. }
    { rewrite fired_delete. simpl in Hsz. lia. }
    rewrite Hd. exists (k :: found), a'. rewrite fired_delete in Hin, Hlen.
    split; [done|]. split; [|split; [|split; [|split; [|split]]]].
    + apply NoDup_cons. split; [|done]. rewrite Hin, dom_delete_L. set_solver.
    + intros k'. rewrite elem_of_cons, Hin, dom_delete_L.
      apply elem_of_dom_2 in Hf.
      destruct (decide (k' = k)) as [->|]; set_solver.
    + simpl. lia.
    + intros k'. rewrite Hlk. simpl.
      destruct (decide (k' = k)) as [->|Hne].
      * rewrite lookup_delete_eq.
        destruct (decide (k ∈ k :: found)) as [_|Hn]; [by case_decide|].
        destruct Hn. left.
      * rewrite lookup_delete_ne by done.
        destruct (decide (k' ∈ found)) as [Hi|Hi],
                 (decide (k' ∈ k :: found)) as [Hj|Hj]; try done.
        -- destruct Hj. by right.
        -- apply elem_of_cons in Hj as [?|?]; done.
    + done.
    + unfold Len in *; simpl in *. rewrite (size_delete_Some _ _ _ Hl). lia.
  - assert (fired w a = ∅) as Hemp
      by (apply (Choose_None_visits order); [done|by rewrite Hc]).
    assert (a1 = a) as ->.
    { apply fired_empty in Hemp.
      rewrite (Choose_none_fired order a w Hemp) in Hc. congruence. }
    exists [], a. rewrite Hemp. split; [done|].
    split; [constructor|]. split; [set_solver|]. split; [done|].
    split; [done|]. split; [by apply fired_empty|]. simpl. lia.
Qed.

Lemma registry_chan_lt tr s v ch :
  run tr init = Some s → mu_m (agg s) !! v = Some ch →
  ch < nchan (world s).
Proof.
  intros Hr Hl. pose proof (wf_reachable _ _ Hr) as Hwf.
  destruct (armed_inv_reachable _ _ Hr v ch Hl) as (c & Hc & [Hcl| <-]).
  - by apply (wf_closed _ Hwf).
  - by destruct (wf_heap _ Hwf _ _ Hc) as (_ & ? & _).
Qed.

(** X4: the signal captured by a registration that has not fired fires,
    in any run, exactly when the cell of that registration is given a new
    value by [Set] or a successful [Update]; as long as the registration
    is in the registry, a [Choose] that visits the cell first returns it
    exactly in that case. *)
Theorem registration_tracks_cell tr0 s v ch tr s' :
  run tr0 init = Some s →
  mu_m (agg s) !! v = Some ch → ready (world s) ch = false →
  run tr s = Some s' →
  (ready (world s') ch = true ↔ changed_during v tr s = true) ∧
  (mu_m (agg s') !! v = Some ch →
   ∀ order, (Choose (v :: order) (agg s') (world s')).1 = Some v ↔
            changed_during v tr s = true).
Proof.
  intros Hr0 Hl Hop Hr. pose proof (wf_reachable _ _ Hr0) as Hwf.
  destruct (armed_inv_reachable _ _ Hr0 v ch Hl) as (c & Hc & Hch).
  apply ready_false in Hop. destruct Hch as [?| <-]; [done|].
  pose proof (run_changed_during v c tr s s' Hwf Hc Hr) as Hcd.
  pose proof (wf_run _ _ _ Hwf Hr) as Hwf'.
  assert (ready (world s') (updated c) = true ↔ changed_during v tr s = true)
    as Hiff.
  { destruct (changed_during v tr s).
    - split; [done|]. intros _. by apply ready_true.
    - destruct (wf_heap _ Hwf' _ _ Hcd) as (_ & _ & Hopen' & _).
      split; [|done]. by intros Hcl%ready_true. }
  split; [done|]. intros Hl' order. rewrite <-Hiff. split.
  - destruct (Choose (v :: order) (agg s') (world s')) as [r a'] eqn:Hc'.
    simpl. intros ->.
    apply Choose_Some in Hc' as (ch' & Hl'' & Hrd & _). congruence.
  - intros Hrd. unfold Choose. simpl. by rewrite Hl', Hrd.
Qed.

Lemma Updated_from_ready_registry tr s l done v ch :
  run tr init = Some s → mu_m (agg s) !! v = Some ch →
  ready (Updated_from l done (world s)).2 ch = ready (world s) ch.
Proof.
  intros Hr Hl. pose proof (registry_chan_lt _ _ _ _ Hr Hl) as Hlt.
  unfold Updated_from; simpl. destruct (Updated_scan _ _); simpl; [done|].
  unfold ready; simpl. apply bool_decide_ext. set_solver by lia.
Qed.

(** X5: right after [Updated] returns, its channel is closed exactly when
    some registration has fired, which is exactly when a [Choose] visiting
    the whole registry returns a handle; and it is open exactly when the
    call has left its goroutine in the pool. *)
Theorem Updated_agrees_with_Choose tr0 s done order :
  run tr0 init = Some s → visits_all order (agg s) →
  ∃ r w',
    Updated (agg s) done (world s) = (r, w') ∧
    (ready w' r = true ↔ fired (world s) (agg s) ≠ ∅) ∧
    (ready w' r = true ↔ (Choose order (agg s) w').1 ≠ None) ∧
    (ready w' r = false ↔
     ∃ i, goroutines w' !! i =
            Some (mkWaiter r (done :: (Some <$> Values (agg s))))).
Proof.
  intros Hr Hvis. pose proof (wf_reachable _ _ Hr) as Hwf.
  set (w := world s) in *. set (a := agg s) in *.
  assert (∀ w', (Choose order a w').1 ≠ None ↔ fired w' a ≠ ∅) as Hch.
  { intros w'. split.
    - intros Hne Hemp. apply Hne. apply fired_empty in Hemp.
      by rewrite (Choose_none_fired order a w' Hemp).
    - intros Hne Hnone. apply Hne. by apply (Choose_None_visits order). }
  destruct (Updated a done w) as [r w'] eqn:Hupd. exists r, w'.
  split; [done|]. unfold Updated in Hupd.
  assert (fired w' a = fired w a) as Hfired.
  { unfold fired. apply map_filter_ext. intros k ch Hl. simpl.
    pose proof (Updated_from_ready_registry _ _ (Values a) done _ _ Hr Hl)
      as Hrd.
    fold w in Hrd. rewrite Hupd in Hrd. simpl in Hrd. by rewrite Hrd. }
  rewrite Hch, Hfired.
  destruct (Updated_from_cases (Values a) done w)
    as [[(ch & Hin & Hrd) Heq]|[Hall Heq]];
    rewrite Heq in Hupd; injection Hupd as <- <-.
  - assert (fired w a ≠ ∅) as Hne.
    { apply elem_of_Values in Hin as [k Hk]. intros Hemp.
      assert (fired w a !! k = Some ch) as Hf by (by apply fired_lookup).
      by rewrite Hemp, lookup_empty in Hf. }
    match goal with
    | |- (ready ?W ?R = true ↔ _) ∧ _ =>
        assert (ready W R = true) as Hrdy
          by (apply ready_true; simpl; set_solver)
    end.
    rewrite Hrdy. split; [done|]. split; [done|]. split; [done|].
    intros [i Hi]. simpl in Hi. apply list_elem_of_lookup_2 in Hi.
    destruct (wf_go _ Hwf _ Hi) as (Hlt & _). simpl in Hlt. lia.
  - assert (fired w a = ∅) as Hemp.
    { apply fired_empty, map_Forall_lookup. intros k ch Hl. apply Hall.
      apply elem_of_Values. eauto. }
    match goal with
    | |- (ready ?W ?R = true ↔ _) ∧ _ =>
        assert (ready W R = false) as Hrdy
    end.
    { apply ready_false. simpl. intros Hin%(wf_closed _ Hwf). lia. }
    rewrite Hrdy. split; [split; [done|by intros []]|].
    split; [split; [done|by intros []]|]. split; [|done]. intros _.
    exists (length (goroutines w)). simpl. by apply list_lookup_middle.
Qed.

(** X6: a scheduling of a goroutine of [Updated] either changes nothing,
    no case of its select being ready, or closes the goroutine's channel,
    which was open until then, and removes that goroutine from the pool,
    where no other goroutine has the same channel: [close(ret)] never
    meets a closed channel. *)
Theorem wake_closes_once tr s i :
  run tr init = Some s →
  (wake i (world s) = world s ∧
   ∀ g, goroutines (world s) !! i = Some g →
        existsb (ready_case (world s)) (cases g) = false) ∨
  (∃ g, goroutines (world s) !! i = Some g ∧
        existsb (ready_case (world s)) (cases g) = true ∧
        ready (world s) (ret g) = false ∧
        closed (wake i (world s)) = {[ret g]} ∪ closed (world s) ∧
        goroutines (wake i (world s)) = delete i (goroutines (world s)) ∧
        ∀ g', g' ∈ goroutines (wake i (world s)) → ret g' ≠ ret g).
Proof.
  intros Hr. pose proof (wf_reachable _ _ Hr) as Hwf. unfold wake.
  destruct (goroutines (world s) !! i) as [g|] eqn:Hi; [|by left].
  destruct (existsb (ready_case (world s)) (cases g)) eqn:Hex.
  - right. exists g. split; [done|]. split; [done|].
    assert (g ∈ goroutines (world s)) as Hin
      by (by eapply list_elem_of_lookup_2).
    destruct (wf_go _ Hwf _ Hin) as (_ & Hop & _).
    split; [by apply ready_false|]. simpl. split; [done|]. split; [done|].
    intros g' Hin'. by eapply (NoDup_fmap_delete_ne ret), Hin';
      [apply (wf_rets _ Hwf)|].
  - left. split; [done|]. by intros g' [= <-].
Qed.

(** X7: [Updated] on an empty aggregation with a context whose [Done]
    channel is nil returns a channel that no run ever closes, and the
    goroutine the call started stays blocked for ever. *)
Theorem Updated_background_empty tr0 s r w1 tr s' :
  run tr0 init = Some s → mu_m (agg s) = ∅ →
  Updated (agg s) None (world s) = (r, w1) →
  run tr (mkSys w1 (agg s)) = Some s' →
  ready (world s') r = false ∧
  ∃ i, goroutines (world s') !! i = Some (mkWaiter r [None]).
Proof.
  intros Hr0 Hemp Hupd Hr. pose proof (wf_reachable _ _ Hr0) as Hwf.
  assert (Values (agg s) = []) as Hvals
    by (unfold Values; by rewrite Hemp, map_to_list_empty).
  unfold Updated in Hupd. rewrite Hvals in Hupd.
  assert (wf w1) as Hwf1.
  { pose proof (wf_Updated_from [] None _ Hwf) as H1. by rewrite Hupd in H1. }
  assert (Updated_inv r None [] w1) as Hinv1.
  { destruct (Updated_from_cases [] None (world s))
      as [[(ch & Hin & _) _]|[_ Heq]]; [by apply elem_of_nil in Hin|].
    rewrite Heq in Hupd. injection Hupd as <- <-. right. simpl. split.
    - intros Hin%(wf_closed _ Hwf). lia.
    - apply elem_of_app. right. left. }
  destruct (Updated_inv_run r None [] tr (mkSys w1 (agg s)) s' Hwf1 Hr Hinv1)
    as [[_ [Hd|(ch & Hin & _)]]|[Hop Hg]].
  - done.
  - by apply elem_of_nil in Hin.
  - split; [by apply ready_false|]. by apply list_elem_of_lookup in Hg.
Qed.

End notify_more_properties.

(** * Further properties of the waiting helpers *)
Section notifyx_more_properties.
Context {T E : Type} `{EqDecision T}.
Implicit Types (s : System T) (ctx : Context).
Implicit Types (sc : sched (T:=T) (E:=E)) (ps : picks (T:=T) (E:=E)).


Lemma select_quiet changed stopping sc s :
  Forall (λ e : list (op T E) * bool, e.1 = []) sc →
  ready (world s) changed = false → ready (world s) stopping = false →
  select_changed_or_stopping changed stopping sc s = Pending.
Proof.
  intros Hq Hc Hs. induction Hq as [|[env pick] sc Hnil _ IH]; simpl; [done|].
  simpl in Hnil. subst env. simpl. by rewrite Hc, Hs.
Qed.

(** When the comparison [current != next] is distinctness, a quiet system
    keeps [WaitForChange] waiting. *)
Lemma WaitForChange_quiet fuel ctx current source sc s ch :
  Var_Get source (world s) = Some (current, ch) →
  ready (world s) ch = false → IsStopping ctx s = false →
  Forall (λ e : list (op T E) * bool, e.1 = []) sc →
  WaitForChange fuel ctx current source sc s = Pending.
Proof.
  intros Hget Hch Hst. revert sc.
  induction fuel as [|fuel IH]; intros sc Hq; simpl; [done|].
  destruct Hq as [|[env pick] sc Hnil Hq]; simpl; [done|].
  simpl in Hnil. subst env. simpl. rewrite Hget.
  destruct (decide (current ≠ current)) as [Hne|_]; [done|].
  unfold IsStopping in Hst.
  by rewrite (select_quiet ch (Stopping ctx) sc s Hq Hch Hst).
Qed.

Lemma last_processed_cons (start old new : T) calls :
  last_processed start ((old, new) :: calls) = last_processed new calls.
Proof.
  unfold last_processed. rewrite fmap_cons, last_cons. simpl.
  by destruct (last _).
Qed.

(** X10: the calls [DoWhenChanged] makes of its callback follow one
    another from [start], each old value being the previous new value.
    When it returns without error the context is stopping and the value
    returned is the new value of the last call ([start] if there was
    none); when it returns an error, the failed call is the last one, the
    value returned is that call's old value, which is the new value of the
    last call before it, and the error carries the two values. *)
Theorem DoWhenChanged_returns_last fuel ctx start source fn sc s :
  chained start (DoWhenChanged fuel ctx start source fn sc s).1 ∧
  ∀ lastv e s' rest,
    (DoWhenChanged fuel ctx start source fn sc s).2
      = Returned (lastv, e) s' rest →
    match e with
    | None =>
        lastv = last_processed start
                  (DoWhenChanged fuel ctx start source fn sc s).1 ∧
        IsStopping ctx s' = true
    | Some err =>
        err_last err = lastv ∧
        ∃ ok, (DoWhenChanged fuel ctx start source fn sc s).1
                = ok ++ [(err_last err, err_next err)] ∧
              lastv = last_processed start ok
    end.
Proof.
  revert start sc s. induction fuel as [|fuel IH]; intros start sc s;
    [by split|].
  cbn [DoWhenChanged].
  destruct (WaitForChange (S fuel) ctx start source sc s)
    as [[next chg] s1 sc1| |]; [|by split..].
  destruct (interleave sc1 s1) as [b2 s2 sc2| |]; [|by split..].
  destruct (IsStopping ctx s2) eqn:Hstop.
  { split; [done|]. simpl. by intros lastv e s' rest [= <- <- <- <-]. }
  destruct (interleave sc2 s2) as [b3 s3 sc3| |]; [|by split..].
  destruct (fn start next s3) as [[err|] s4].
  - split; [done|]. simpl. intros lastv e s' rest [= <- <- <- <-]. simpl.
    split; [done|]. by exists [].
  - specialize (IH next sc3 s4).
    destruct (DoWhenChanged fuel ctx next source fn sc3 s4) as [calls r].
    simpl in *. destruct IH as [Hch Hret]. split; [done|].
    intros lastv e s' rest Hr. specialize (Hret _ _ _ _ Hr).
    destruct e as [err|].
    + destruct Hret as (Hl & ok & -> & Hlast). split; [done|].
      exists ((start, next) :: ok). split; [done|].
      by rewrite last_processed_cons.
    + by rewrite last_processed_cons.
Qed.


(** ** Selects with three cases *)

Lemma yield_closed_mono ps s n s' rest :
  yield ps s = Ret n s' rest → closed (world s) ⊆ closed (world s').
Proof.
  destruct ps as [|[env pick] ps']; simpl; [done|].
  destruct (run env s) as [s1|] eqn:Hr; [|done].
  intros [= <- <- <-]. by eapply run_closed_mono.
Qed.







(** X14: the calls [DoWhenChangedOrInterval] makes of its callback follow
    one another from [start], and its return values are related to them
    as those of [DoWhenChanged] are: without error the context is stopping
    and the value is the new value of the last call; with an error the
    failed call is the last one and the value is its old value. *)
Theorem DoWhenChangedOrInterval_returns_last fuel ctx start source fn ps s :
  chained start (DoWhenChangedOrInterval fuel ctx start source fn ps s).1 ∧
  ∀ lastv e s' rest,
    (DoWhenChangedOrInterval fuel ctx start source fn ps s).2
      = Ret (lastv, e) s' rest →
    match e with
    | None =>
        lastv = last_processed start
                  (DoWhenChangedOrInterval fuel ctx start source fn ps s).1 ∧
        IsStopping ctx s' = true
    | Some err =>
        err_last err = lastv ∧
        ∃ ok, (DoWhenChangedOrInterval fuel ctx start source fn ps s).1
                = ok ++ [(err_last err, err_next err)] ∧
              lastv = last_processed start ok
    end.
Proof.
  revert start ps s. induction fuel as [|fuel IH]; intros start ps s;
    [by split|].
  cbn [DoWhenChangedOrInterval].
  destruct (WaitForChangeOrDuration (S fuel) ctx start source ps s)
    as [[next chg] s1 ps1| |]; [|by split..].
  destruct (yield ps1 s1) as [b2 s2 ps2| |]; [|by split..].
  destruct (IsStopping ctx s2) eqn:Hstop.
  { split; [done|]. simpl. by intros lastv e s' rest [= <- <- <- <-]. }
  destruct (yield ps2 s2) as [b3 s3 ps3| |]; [|by split..].
  destruct (fn start next s3) as [[err|] s4].
  - split; [done|]. simpl. intros lastv e s' rest [= <- <- <- <-]. simpl.
    split; [done|]. by exists [].
  - specialize (IH next ps3 s4).
    destruct (DoWhenChangedOrInterval fuel ctx next source fn ps3 s4)
      as [calls r].
    simpl in *. destruct IH as [Hch Hret]. split; [done|].
    intros lastv e s' rest Hr. specialize (Hret _ _ _ _ Hr).
    destruct e as [err|].
    + destruct Hret as (Hl & ok & -> & Hlast). split; [done|].
      exists ((start, next) :: ok). split; [done|].
      by rewrite last_processed_cons.
    + by rewrite last_processed_cons.
Qed.

End notifyx_more_properties.

(** * Cells of integers *)
Section integer_cells.
Context {E : Type}.

(** X9: for a cell of integers, a [Var[int]], on which [!=] is
    distinctness: while the cell holds [current] with its channel open,
    the context is not stopping and no other goroutine does anything,
    [WaitForChange] does not return, however long it runs. *)
Theorem WaitForChange_blocks (fuel : nat) (ctx : Context) (current : Z)
    (source : var) (sc : sched (T:=Z) (E:=E)) (s : System Z) (ch : chan) :
  Var_Get source (world s) = Some (current, ch) →
  ready (world s) ch = false → IsStopping ctx s = false →
  Forall (λ e : list (op Z E) * bool, e.1 = []) sc →
  WaitForChange fuel ctx current source sc s = Pending.
Proof. apply WaitForChange_quiet. Qed.

End integer_cells.

(** * Stopping *)
Section stopping_properties.
Context {T E : Type} `{EqDecision T}.
Implicit Types (s : System T) (ctx : Context).
Implicit Types (sc : sched (T:=T) (E:=E)) (ps : picks (T:=T) (E:=E)).

Lemma select_changed_or_stopping_mono changed stopping sc s b s' rest :
  select_changed_or_stopping changed stopping sc s = Returned b s' rest →
  closed (world s) ⊆ closed (world s').
Proof.
  revert s. induction sc as [|[env pick] sc' IH]; simpl; intros s; [done|].
  destruct (run env s) as [s1|] eqn:Hr; [|done].
  pose proof (run_closed_mono _ _ _ Hr) as Hm.
  destruct (ready (world s1) changed), (ready (world s1) stopping).
  - by intros [= <- <- <-].
  - by intros [= <- <- <-].
  - by intros [= <- <- <-].
  - intros Hs%IH. set_solver.
Qed.

Lemma WaitForChange_closed_mono fuel ctx current source sc s r s' rest :
  WaitForChange fuel ctx current source sc s = Returned r s' rest →
  closed (world s) ⊆ closed (world s').
Proof.
  revert sc s. induction fuel as [|fuel IH]; simpl; intros sc s; [done|].
  destruct (interleave sc s) as [b s1 sc1| |] eqn:Hi; [|done..].
  apply interleave_closed_mono in Hi.
  destruct (Var_Get source (world s1)) as [[nx chg]|]; [|done].
  destruct (decide (current ≠ nx)) as [Hne|Heq].
  - by intros [= <- <- <-].
  - destruct (select_changed_or_stopping chg (Stopping ctx) sc1 s1)
      as [b2 s2 sc2| |] eqn:Hsel; [|done..].
    apply select_changed_or_stopping_mono in Hsel.
    destruct b2.
    + intros Hw%IH. set_solver.
    + intros [= <- <- <-]. set_solver.
Qed.

Lemma select_recv_mono cs ps s i s' rest :
  select_recv cs ps s = Ret i s' rest →
  closed (world s) ⊆ closed (world s').
Proof.
  revert s. induction ps as [|[env pick] ps' IH]; simpl; intros s; [done|].
  destruct (run env s) as [s1|] eqn:Hr; [|done].
  pose proof (run_closed_mono _ _ _ Hr) as Hm.
  destruct (ready_from (world s1) 0 cs !! _) as [j|].
  - by intros [= <- <- <-].
  - intros Hs%IH. set_solver.
Qed.

Lemma WaitForChangeOrDuration_loop_mono fuel ctx current source timerC ps s r
    s' rest :
  WaitForChangeOrDuration_loop fuel ctx current source timerC ps s
    = Ret r s' rest →
  closed (world s) ⊆ closed (world s').
Proof.
  revert ps s. induction fuel as [|fuel IH]; simpl; intros ps s; [done|].
  destruct (yield ps s) as [n s1 ps1| |] eqn:Hy; [|done..].
  apply yield_closed_mono in Hy.
  destruct (Var_Get source (world s1)) as [[nx chg]|]; [|done].
  destruct (decide (current ≠ nx)) as [Hne|Heq].
  { by intros [= <- <- <-]. }
  destruct (select_recv [chg; timerC; Stopping ctx] ps1 s1)
    as [i s2 ps2| |] eqn:Hsel; [|done..].
  apply select_recv_mono in Hsel.
  destruct i as [|i].
  - intros Hw%IH. set_solver.
  - intros [= <- <- <-]. set_solver.
Qed.

(** X15: once the context is stopping, [DoWhenChanged] and
    [DoWhenChangedOrInterval] make no call of the callback any more: under
    every schedule they make none and, if they return, return the start
    value and no error. *)
Theorem DoWhenChanged_stopping_no_calls fuel ctx start source fn s :
  IsStopping ctx s = true →
  (∀ sc,
     (DoWhenChanged fuel ctx start source fn sc s).1 = [] ∧
     ∀ r s' rest,
       (DoWhenChanged fuel ctx start source fn sc s).2 = Returned r s' rest →
       r = (start, None)) ∧
  (∀ ps,
     (DoWhenChangedOrInterval fuel ctx start source fn ps s).1 = [] ∧
     ∀ r s' rest,
       (DoWhenChangedOrInterval fuel ctx start source fn ps s).2
         = Ret r s' rest →
       r = (start, None)).
Proof.
  intros Hst. unfold IsStopping in Hst. apply ready_true in Hst.
  split.
  - intros sc. destruct fuel as [|fuel]; [by split|].
    cbn [DoWhenChanged].
    destruct (WaitForChange (S fuel) ctx start source sc s)
      as [[next chg] s1 sc1| |] eqn:Hw; [|by split..].
    apply WaitForChange_closed_mono in Hw.
    destruct (interleave sc1 s1) as [b2 s2 sc2| |] eqn:Hi; [|by split..].
    apply interleave_closed_mono in Hi.
    assert (IsStopping ctx s2 = true) as ->
      by (apply ready_true; set_solver).
    split; [done|]. simpl. by intros r s' rest [= <- <- <-].
  - intros ps. destruct fuel as [|fuel]; [by split|].
    cbn [DoWhenChangedOrInterval].
    destruct (WaitForChangeOrDuration (S fuel) ctx start source ps s)
      as [[next chg] s1 ps1| |] eqn:Hw; [|by split..].
    cbv beta iota zeta delta
      [WaitForChangeOrDuration NewTimer WithCancel make_chan] in Hw.
    apply WaitForChangeOrDuration_loop_mono in Hw.
    simpl in Hw.
    destruct (yield ps1 s1) as [b2 s2 ps2| |] eqn:Hi; [|by split..].
    apply yield_closed_mono in Hi.
    assert (IsStopping ctx s2 = true) as ->
      by (apply ready_true; set_solver).
    split; [done|]. simpl. by intros r s' rest [= <- <- <-].
Qed.

End stopping_properties.

(** * The further properties on small programs *)
Section more_examples.

Abbreviation op' := (op nat unit).
Abbreviation run' := (run (T:=nat) (E:=unit)).

(** Registering the new cell 0, which holds 7 with channel 0. *)
Lemma Aggregate_registers_witness :
  Aggregate NewAggregation 0 (VarOf 7 empty_world).2
    = Some (7, mkAgg {[0 := 0]}) ∧
  ∃ ch, Var_Get 0 (VarOf 7 empty_world).2 = Some (7, ch) ∧
        mu_m (mkAgg {[0 := 0]}) !! 0 = Some ch ∧
        (∀ k, k ≠ 0 → mu_m (mkAgg {[0 := 0]}) !! k
                       = mu_m NewAggregation !! k) ∧
        Len (mkAgg {[0 := 0]})
          = if decide (0 ∈ dom (mu_m NewAggregation)) then Len NewAggregation
            else S (Len NewAggregation).
Proof.
  split; [reflexivity|].
  apply (Aggregate_registers NewAggregation 0 (VarOf 7 empty_world).2 7).
  reflexivity.
Defined.

(** Cells 0 and 1 are registered and cell 1 is set: a [Choose] visiting 0
    and then 1 returns cell 1. *)
Lemma Choose_finds_fired_witness :
  ∃ s, run' [OpVarOf 7; OpAggregate 0; OpVarOf 8; OpAggregate 1; OpSet 1 9]
            init = Some s ∧
       visits_all [0; 1] (agg s) ∧
       (Choose [0; 1] (agg s) (world s)).1 = Some 1 ∧
       ((Choose [0; 1] (agg s) (world s)).1 = None ↔
        fired (world s) (agg s) = ∅) ∧
       (fired (world s) (agg s) ≠ ∅ →
        ∃ k ch, Choose [0; 1] (agg s) (world s)
                  = (Some k, mkAgg (delete k (mu_m (agg s)))) ∧
                fired (world s) (agg s) !! k = Some ch).
Proof.
  eexists. split; [reflexivity|].
  split; [unfold visits_all; refine (bool_decide_unpack _ _); vm_compute; exact I|].
  split; [reflexivity|].
  match goal with
  | |- (( _ (agg ?s) (world ?s)).1 = None ↔ _) ∧ _ =>
      apply (Choose_finds_fired (T:=nat) [0; 1] (agg s) (world s))
  end.
  unfold visits_all. refine (bool_decide_unpack _ _). vm_compute. exact I.
Defined.

(** Cells 0, 1 and 2 are registered and cells 0 and 2 are set: the loop
    returns the handles 2 and 0 and leaves cell 1 registered. *)
Lemma drain_finds_all_witness :
  ∃ s, run' [OpVarOf 7; OpAggregate 0; OpSet 0 99;
             OpVarOf 8; OpAggregate 1;
             OpVarOf 9; OpAggregate 2; OpSet 2 99] init = Some s ∧
       Forall (λ order, visits_all order (agg s))
              [[2; 1; 0]; [0; 1; 2]; [1; 2; 0]] ∧
       size (fired (world s) (agg s)) < 3 ∧
       drain [[2; 1; 0]; [0; 1; 2]; [1; 2; 0]] (agg s) (world s)
         = ([2; 0], mkAgg {[1 := 2]}) ∧
       ∃ found a',
         drain [[2; 1; 0]; [0; 1; 2]; [1; 2; 0]] (agg s) (world s)
           = (found, a') ∧
         NoDup found ∧
         (∀ k, k ∈ found ↔ k ∈ dom (fired (world s) (agg s))) ∧
         length found = size (fired (world s) (agg s)) ∧
         (∀ k, mu_m a' !! k
               = if decide (k ∈ found) then None else mu_m (agg s) !! k) ∧
         none_fired (world s) a' ∧
         Len (agg s) = length found + Len a'.
Proof.
  eexists. split; [vm_compute; reflexivity|].
  match goal with
  | |- ?F ∧ ?S ∧ _ => assert F as HF; [|assert S as HS]
  end.
  - repeat constructor; unfold visits_all; refine (bool_decide_unpack _ _); vm_compute; exact I.
  - vm_compute. lia.
  - split; [exact HF|]. split; [exact HS|]. split; [vm_compute; reflexivity|].
    exact (drain_finds_all _ _ _ HF HS).
Defined.

(** Cell 0 is registered; a run that sets another cell and then cell 0
    closes the captured channel 0, and [Choose] returns cell 0. *)
Lemma registration_tracks_cell_witness :
  ∃ s s',
    run' [OpVarOf 7; OpAggregate 0; OpVarOf 8] init = Some s ∧
    mu_m (agg s) !! 0 = Some 0 ∧
    ready (world s) 0 = false ∧
    run' [OpSet 1 9; OpSet 0 7] s = Some s' ∧
    changed_during (E:=unit) 0 [OpSet 1 9; OpSet 0 7] s = true ∧
    (ready (world s') 0 = true ↔
     changed_during (E:=unit) 0 [OpSet 1 9; OpSet 0 7] s = true) ∧
    (mu_m (agg s') !! 0 = Some 0 →
     ∀ order, (Choose (0 :: order) (agg s') (world s')).1 = Some 0 ↔
              changed_during (E:=unit) 0 [OpSet 1 9; OpSet 0 7] s = true).
Proof.
  eexists _, _. split; [reflexivity|]. split; [reflexivity|].
  split; [reflexivity|]. split; [reflexivity|]. split; [reflexivity|].
  apply (registration_tracks_cell (E:=unit)
           [OpVarOf 7; OpAggregate 0; OpVarOf 8]); reflexivity.
Defined.

(** Cell 0 is registered and set, cell 1 is registered: [Updated] returns
    the closed channel 4 and [Choose] finds cell 0. *)
Lemma Updated_agrees_with_Choose_witness :
  ∃ s, run' [OpVarOf 7; OpAggregate 0; OpSet 0 8; OpVarOf 9; OpAggregate 1]
            init = Some s ∧
       visits_all [1; 0] (agg s) ∧
       ∃ r w',
         Updated (agg s) None (world s) = (r, w') ∧
         (ready w' r = true ↔ fired (world s) (agg s) ≠ ∅) ∧
         (ready w' r = true ↔ (Choose [1; 0] (agg s) w').1 ≠ None) ∧
         (ready w' r = false ↔
          ∃ i, goroutines w' !! i
                 = Some (mkWaiter r (None :: (Some <$> Values (agg s))))).
Proof.
  eexists.
  assert (∀ P Q : Prop, P → (P → Q) → P ∧ Q) as Hcut
    by (intros P Q HP HQ; split; [exact HP|exact (HQ HP)]).
  split; [reflexivity|]. apply Hcut.
  - unfold visits_all. refine (bool_decide_unpack _ _). vm_compute. exact I.
  - apply (Updated_agrees_with_Choose (E:=unit)
             [OpVarOf 7; OpAggregate 0; OpSet 0 8; OpVarOf 9; OpAggregate 1]).
    reflexivity.
Defined.

(** A goroutine waits on the cancelled context of channel 0: scheduling
    it closes its channel 1, which was open, and empties the pool. *)
Lemma wake_closes_once_witness :
  ∃ s, run' [OpWithCancel; OpUpdated (Some 0); OpCancel 0] init = Some s ∧
       ready (world s) 1 = false ∧
       ready (wake 0 (world s)) 1 = true ∧
       goroutines (wake 0 (world s)) = [] ∧
       ((wake 0 (world s) = world s ∧
         ∀ g, goroutines (world s) !! 0 = Some g →
              existsb (ready_case (world s)) (cases g) = false) ∨
        (∃ g, goroutines (world s) !! 0 = Some g ∧
              existsb (ready_case (world s)) (cases g) = true ∧
              ready (world s) (ret g) = false ∧
              closed (wake 0 (world s)) = {[ret g]} ∪ closed (world s) ∧
              goroutines (wake 0 (world s))
                = delete 0 (goroutines (world s)) ∧
              ∀ g', g' ∈ goroutines (wake 0 (world s)) → ret g' ≠ ret g)).
Proof.
  eexists. split; [reflexivity|]. split; [reflexivity|].
  split; [reflexivity|]. split; [reflexivity|].
  apply (wake_closes_once (E:=unit)
           [OpWithCancel; OpUpdated (Some 0); OpCancel 0]).
  reflexivity.
Defined.

(** Nothing is registered and the context cannot be cancelled: after a
    cell has been created, registered and set and goroutine 0 scheduled,
    the channel 0 that [Updated] returned is open and the goroutine is
    still there. *)
Lemma Updated_background_empty_witness :
  ∃ w1 s',
    Updated (agg (T:=nat) init) None (world init) = (0, w1) ∧
    run' [OpVarOf 7; OpAggregate 0; OpSet 0 8; OpWake 0]
         (mkSys w1 (agg (T:=nat) init)) = Some s' ∧
    ready (world s') 0 = false ∧
    ∃ i, goroutines (world s') !! i = Some (mkWaiter 0 [None]).
Proof.
  eexists _, _. split; [reflexivity|]. split; [reflexivity|].
  eapply (Updated_background_empty (E:=unit) [] init 0 _
            [OpVarOf 7; OpAggregate 0; OpSet 0 8; OpWake 0]); reflexivity.
Defined.


(** The integer cell holds 7 and nobody does anything: [WaitForChange]
    with 7 is still waiting after four turns of the others. *)
Lemma WaitForChange_blocks_witness :
  ∃ s,
    run (T:=Z) (E:=unit) [OpVarOf 7%Z; OpWithCancel] init = Some s ∧
    Var_Get 0 (world s) = Some (7%Z, 0) ∧
    WaitForChange (E:=unit) 5 (mkContext 1) 7%Z 0
      [([], true); ([], false); ([], true); ([], true)] s = Pending.
Proof.
  eexists. split; [vm_compute; reflexivity|]. split; [reflexivity|].
  apply (WaitForChange_blocks (E:=unit) 5 (mkContext 1) 7%Z 0 _ _ 0);
    [reflexivity..|]. by repeat constructor.
Defined.




(** The context is stopped before [DoWhenChanged] starts, and the cell is
    set to a new value meanwhile: the callback is not called. *)
Lemma DoWhenChanged_stopping_no_calls_witness :
  ∃ s,
    run' [OpVarOf 7; OpWithCancel; OpCancel 1] init = Some s ∧
    IsStopping (mkContext 1) s = true ∧
    (DoWhenChanged (E:=unit) 3 (mkContext 1) 7 0 (λ _ _ s0, (None, s0))
       [([OpSet 0 8], true); ([], true); ([], true)] s).1 = [] ∧
    ∃ s', (DoWhenChanged (E:=unit) 3 (mkContext 1) 7 0
             (λ _ _ s0, (None, s0))
             [([OpSet 0 8], true); ([], true); ([], true)] s).2
          = Returned (7, None) s' [([], true)].
Proof.
  eexists. split; [reflexivity|].
  assert (∀ P Q : Prop, P → (P → Q) → P ∧ Q) as Hcut
    by (intros P Q HP HQ; split; [exact HP|exact (HQ HP)]).
  apply Hcut; [reflexivity|]. intros Hst.
  split.
  - apply (proj1 (DoWhenChanged_stopping_no_calls (E:=unit) 3 (mkContext 1)
                    7 0 (λ _ _ s0, (None, s0)) _ Hst)).
  - eexists. vm_compute. reflexivity.
Defined.

(** A callback failing on its second call: the calls are (7, 8) and
    (8, 9), the value returned is 8 and the error carries 8 and 9. *)
Lemma DoWhenChanged_returns_last_witness :
  ∃ s s1,
    run' [OpVarOf 7; OpWithCancel] init = Some s ∧
    DoWhenChanged (E:=unit) 3 (mkContext 1) 7 0
      (λ old _ s0, (if decide (old = 8) then Some tt else None, s0))
      [([OpSet 0 8], true); ([], true); ([], true);
       ([OpSet 0 9], true); ([], true); ([], true)] s
    = ([(7, 8); (8, 9)],
       Returned (8, Some (mkChangedError 8 9 tt)) s1 []) ∧
    chained 7 [(7, 8); (8, 9)] ∧
    ∃ ok, [(7, 8); (8, 9)] = ok ++ [(8, 9)] ∧ 8 = last_processed 7 ok.
Proof.
  eexists _, _. split; [reflexivity|].
  assert (∀ P Q : Prop, P → (P → Q) → P ∧ Q) as Hcut
    by (intros P Q HP HQ; split; [exact HP|exact (HQ HP)]).
  apply Hcut; [vm_compute; reflexivity|]. intros Hrun.
  match type of Hrun with
  | DoWhenChanged ?f ?c ?st ?src ?fn ?sc ?s = _ =>
      destruct (DoWhenChanged_returns_last f c st src fn sc s) as [Hch Hret];
      rewrite Hrun in Hch, Hret
  end.
  split; [exact Hch|].
  exact (proj2 (Hret _ _ _ _ eq_refl)).
Defined.

(** The cell holds 7 and the timer of the call, channel 2, fires: the
    callback is called with (7, 7); it fails, and 7 is returned. *)
Lemma DoWhenChangedOrInterval_returns_last_witness :
  ∃ s s1,
    run' [OpVarOf 7; OpWithCancel] init = Some s ∧
    DoWhenChangedOrInterval (E:=unit) 1 (mkContext 1) 7 0
      (λ _ _ s0, (Some tt, s0))
      [([], 0); ([OpCancel 2], 0); ([], 0); ([], 0)] s
    = ([(7, 7)], Ret (7, Some (mkChangedError 7 7 tt)) s1 []) ∧
    chained 7 [(7, 7)] ∧
    ∃ ok, [(7, 7)] = ok ++ [(7, 7)] ∧ 7 = last_processed 7 ok.
Proof.
  eexists _, _. split; [reflexivity|].
  assert (∀ P Q : Prop, P → (P → Q) → P ∧ Q) as Hcut
    by (intros P Q HP HQ; split; [exact HP|exact (HQ HP)]).
  apply Hcut; [vm_compute; reflexivity|]. intros Hrun.
  match type of Hrun with
  | DoWhenChangedOrInterval ?f ?c ?st ?src ?fn ?sc ?s = _ =>
      destruct (DoWhenChangedOrInterval_returns_last f c st src fn sc s)
        as [Hch Hret];
      rewrite Hrun in Hch, Hret
  end.
  split; [exact Hch|].
  exact (proj2 (Hret _ _ _ _ eq_refl)).
Defined.

End more_examples.
